(** * wouso: player groups and modifier accounting

    A shallow embedding of [wouso/core/user/models.py]: the Django models
    [PlayerGroup], [PlayerArtifactAmount], [PlayerSpellAmount],
    [PlayerSpellDue] and the methods of [Player] that keep the modifier
    accounts.  A database table is a finite map from primary keys to rows,
    a method is a function from the database to an outcome (a value or a
    raised exception) and the database it leaves behind. *)

From stdpp Require Import gmap strings list fin_maps.
From Stdlib Require Import ZArith.

Local Open Scope Z_scope.

(** ** Exceptions and outcomes *)

(** The exceptions the modelled methods can meet.  [GodError] stands for
    whatever the external [God] object raises. *)
Inductive exn : Type :=
  | InsufficientAmount
  | DoesNotExist
  | MultipleObjectsReturned
  | AttributeError
  | AssertionError
  | IntegrityError
  | ValueError
  | GodError.

Inductive result (A : Type) : Type :=
  | Ok (a : A)
  | Raise (e : exn).
Arguments Ok {A} a.
Arguments Raise {A} e.

(** ** Rows of the tables

    A foreign key to [Player] is the player's primary key.  A foreign key
    to [Artifact] or [Spell] (models of [wouso.core.magic], of which the
    methods read the primary key and the [name]) carries the row it
    points to. *)

Module Artifact.
Record t : Type := mk { id : nat; name : string }.
End Artifact.

Module Spell.
Record t : Type := mk { id : nat; name : string }.
End Spell.

Module PlayerGroup.
(** [points] (a float used for sorting only) is left out. *)
Record t : Type := mk {
  group : nat;
  name : string;
  gclass : Z;
  parent : option nat
}.
End PlayerGroup.

Module PlayerArtifactAmount.
Record t : Type := mk { player : nat; artifact : Artifact.t; amount : Z }.
End PlayerArtifactAmount.

Module PlayerSpellAmount.
Record t : Type := mk { player : nat; spell : Spell.t; amount : Z }.
End PlayerSpellAmount.

Module PlayerSpellDue.
Record t : Type := mk {
  player : nat;
  spell : Spell.t;
  source : nat;
  due : Z
}.
End PlayerSpellDue.

(** ** Tables and the object manager *)

Abbreviation Table R := (gmap nat R).

(** A model instance in memory: its primary key and its field values. *)
Abbreviation Instance R := (nat * R)%type.

Section Manager.
Context {R : Type}.
Implicit Types (tbl : Table R) (P : R → Prop).

(** [Model.objects.filter(...)]: the rows that satisfy the lookup. *)
Definition objects_filter P `{!∀ r, Decision (P r)} tbl : Table R :=
  filter (λ kv : nat * R, P kv.2) tbl.

(** [Model.objects.get(...)]: the one row that satisfies the lookup. *)
Definition objects_get P `{!∀ r, Decision (P r)} tbl : result (Instance R) :=
  match map_to_list (objects_filter P tbl) with
  | [] => Raise DoesNotExist
  | [obj] => Ok obj
  | _ :: _ :: _ => Raise MultipleObjectsReturned
  end.

(** The primary key given to a new row: one that the table does not use. *)
Definition next_id tbl : nat := fresh (dom tbl).

(** [Model.objects.create(...)] under a [unique_together] constraint:
    [same r r'] says that [r] and [r'] agree on the constrained fields. *)
Definition objects_create (same : R → R → Prop)
    `{!∀ r r', Decision (same r r')} (r : R) tbl
    : result (Instance R) * Table R :=
  if decide (map_Exists (λ _ r', same r r') tbl)
  then (Raise IntegrityError, tbl)
  else (Ok (next_id tbl, r), <[next_id tbl := r]> tbl).

(** [obj.save()] of an instance with a primary key: an UPDATE of the row
    with that key, an INSERT when there is none; either is refused when
    another row has the same constrained fields. *)
Definition save (same : R → R → Prop)
    `{!∀ r r', Decision (same r r')} (obj : Instance R) tbl
    : result unit * Table R :=
  if decide (map_Exists (λ k r', k ≠ obj.1 ∧ same obj.2 r') tbl)
  then (Raise IntegrityError, tbl)
  else (Ok tt, <[obj.1 := obj.2]> tbl).

(** [obj.delete()]. *)
Definition delete_obj (obj : Instance R) tbl : Table R := delete obj.1 tbl.
End Manager.

(** ** The database and the methods' monad *)

Record DB : Type := mkDB {
  playergroup_table : Table PlayerGroup.t;
  playerartifactamount_table : Table PlayerArtifactAmount.t;
  playerspellamount_table : Table PlayerSpellAmount.t;
  playerspelldue_table : Table PlayerSpellDue.t
}.

Definition empty_db : DB := mkDB ∅ ∅ ∅ ∅.

(** A method reads and writes the database and returns or raises. *)
Definition M (A : Type) : Type := DB → result A * DB.

Definition ret {A} (a : A) : M A := λ db, (Ok a, db).
Definition raise {A} (e : exn) : M A := λ db, (Raise e, db).
Definition bind {A B} (m : M A) (k : A → M B) : M B :=
  λ db, match m db with
        | (Ok a, db') => k a db'
        | (Raise e, db') => (Raise e, db')
        end.

(** [try: m except <the exceptions h answers>: h e].  The handler runs in
    the database as the failed body left it: nothing is rolled back. *)
Definition try_except {A} (m : M A) (h : exn → option (M A)) : M A :=
  λ db, match m db with
        | (Ok a, db') => (Ok a, db')
        | (Raise e, db') =>
            match h e with
            | Some k => k db'
            | None => (Raise e, db')
            end
        end.

Notation "'let!' x ':=' m 'in' k" := (bind m (λ x, k))
  (at level 10, x name, m at level 100, k at level 200).

(** Lifting the manager's operations to the tables of the database. *)
Definition on_artifact_amounts {A}
    (f : Table PlayerArtifactAmount.t → result A * Table PlayerArtifactAmount.t)
    : M A :=
  λ db, let '(a, tbl) := f (playerartifactamount_table db) in
        (a, mkDB (playergroup_table db) tbl
                 (playerspellamount_table db) (playerspelldue_table db)).

Definition on_spell_amounts {A}
    (f : Table PlayerSpellAmount.t → result A * Table PlayerSpellAmount.t)
    : M A :=
  λ db, let '(a, tbl) := f (playerspellamount_table db) in
        (a, mkDB (playergroup_table db) (playerartifactamount_table db)
                 tbl (playerspelldue_table db)).

Definition on_spell_dues {A}
    (f : Table PlayerSpellDue.t → result A * Table PlayerSpellDue.t)
    : M A :=
  λ db, let '(a, tbl) := f (playerspelldue_table db) in
        (a, mkDB (playergroup_table db) (playerartifactamount_table db)
                 (playerspellamount_table db) tbl).

(** The [unique_together] constraints of the three models. *)
Definition same_artifact (r r' : PlayerArtifactAmount.t) : Prop :=
  PlayerArtifactAmount.player r = PlayerArtifactAmount.player r' ∧
  Artifact.id (PlayerArtifactAmount.artifact r) =
    Artifact.id (PlayerArtifactAmount.artifact r').

Definition same_spell (r r' : PlayerSpellAmount.t) : Prop :=
  PlayerSpellAmount.player r = PlayerSpellAmount.player r' ∧
  Spell.id (PlayerSpellAmount.spell r) = Spell.id (PlayerSpellAmount.spell r').

Definition same_due (r r' : PlayerSpellDue.t) : Prop :=
  PlayerSpellDue.player r = PlayerSpellDue.player r' ∧
  Spell.id (PlayerSpellDue.spell r) = Spell.id (PlayerSpellDue.spell r').

#[global] Instance same_artifact_dec r r' : Decision (same_artifact r r').
Proof. unfold same_artifact. apply _. Defined.
#[global] Instance same_spell_dec r r' : Decision (same_spell r r').
Proof. unfold same_spell. apply _. Defined.
#[global] Instance same_due_dec r r' : Decision (same_due r r').
Proof. unfold same_due. apply _. Defined.

(** The lookups the methods make. *)

(** [player=p, artifact__name=modifier] *)
Definition artifact_named (p : nat) (modifier : string)
    (r : PlayerArtifactAmount.t) : Prop :=
  PlayerArtifactAmount.player r = p ∧
  Artifact.name (PlayerArtifactAmount.artifact r) = modifier.

(** [player=p, spell__name=modifier] *)
Definition due_named (p : nat) (modifier : string)
    (r : PlayerSpellDue.t) : Prop :=
  PlayerSpellDue.player r = p ∧
  Spell.name (PlayerSpellDue.spell r) = modifier.

(** [player=p, spell=spell] *)
Definition spell_of (p : nat) (spell : Spell.t)
    (r : PlayerSpellAmount.t) : Prop :=
  PlayerSpellAmount.player r = p ∧
  Spell.id (PlayerSpellAmount.spell r) = Spell.id spell.

#[global] Instance artifact_named_dec p m r : Decision (artifact_named p m r).
Proof. unfold artifact_named. apply _. Defined.
#[global] Instance due_named_dec p m r : Decision (due_named p m r).
Proof. unfold due_named. apply _. Defined.
#[global] Instance spell_of_dec p s r : Decision (spell_of p s r).
Proof. unfold spell_of. apply _. Defined.

(** ** The methods of [Player] *)

(** What [has_modifier] returns: an artifact amount, an active spell, or
    [False]. *)
Inductive modifier_record : Type :=
  | ArtifactAmountRecord (obj : Instance PlayerArtifactAmount.t)
  | SpellDueRecord (obj : Instance PlayerSpellDue.t)
  | NotFound.

Section Player.
(** The two methods of the external [God] object that write to or read
    from the database on behalf of the modelled methods. *)
Variable get_artifact_for_modifier : string → nat → M (option Artifact.t).
Variable post_cast : Instance PlayerSpellDue.t → M unit.

Definition get_artifact_amount (self : nat) (modifier : string)
    : M (Instance PlayerArtifactAmount.t) :=
  on_artifact_amounts
    (λ tbl, (objects_get (artifact_named self modifier) tbl, tbl)).

Definition get_spell_due (self : nat) (modifier : string)
    : M (Instance PlayerSpellDue.t) :=
  on_spell_dues (λ tbl, (objects_get (due_named self modifier) tbl, tbl)).

Definition get_spell_amount (p : nat) (spell : Spell.t)
    : M (Instance PlayerSpellAmount.t) :=
  on_spell_amounts (λ tbl, (objects_get (spell_of p spell) tbl, tbl)).

Definition has_modifier (self : nat) (modifier : string)
    : M modifier_record :=
  try_except
    (let! obj := get_artifact_amount self modifier in
     ret (ArtifactAmountRecord obj))
    (λ e, match e with
          | DoesNotExist => Some (
              try_except
                (let! obj := get_spell_due self modifier in
                 ret (SpellDueRecord obj))
                (λ e, match e with
                      | DoesNotExist => Some (ret NotFound)
                      | _ => None
                      end))
          | _ => None
          end).

(** [paamount.amount]: only an artifact amount has the attribute. *)
Definition getattr_amount (paamount : modifier_record)
    : M (Instance PlayerArtifactAmount.t) :=
  match paamount with
  | ArtifactAmountRecord obj => ret obj
  | SpellDueRecord _ | NotFound => raise AttributeError
  end.

Definition set_amount (obj : Instance PlayerArtifactAmount.t) (a : Z)
    : Instance PlayerArtifactAmount.t :=
  (obj.1, PlayerArtifactAmount.mk (PlayerArtifactAmount.player obj.2)
            (PlayerArtifactAmount.artifact obj.2) a).

Definition set_spell_amount (obj : Instance PlayerSpellAmount.t) (a : Z)
    : Instance PlayerSpellAmount.t :=
  (obj.1, PlayerSpellAmount.mk (PlayerSpellAmount.player obj.2)
            (PlayerSpellAmount.spell obj.2) a).

Definition use_modifier (self : nat) (modifier : string) (amount : Z)
    : M (Instance PlayerArtifactAmount.t) :=
  let! paamount := has_modifier self modifier in
  let! obj := getattr_amount paamount in
  if decide (amount > PlayerArtifactAmount.amount obj.2)
  then raise InsufficientAmount
  else
    let paamount := set_amount obj (PlayerArtifactAmount.amount obj.2 - amount) in
    let! _ :=
      if decide (PlayerArtifactAmount.amount paamount.2 = 0)
      then on_artifact_amounts (λ tbl, (Ok tt, delete_obj paamount tbl))
      else on_artifact_amounts (save same_artifact paamount) in
    ret paamount.

Definition give_modifier (self : nat) (modifier : string) (amount : Z)
    : M (option (Instance PlayerArtifactAmount.t)) :=
  if decide (amount ≤ 0) then ret None
  else
    let! paamount := has_modifier self modifier in
    match paamount with
    | NotFound =>
        let! artifact := get_artifact_for_modifier modifier self in
        match artifact with
        | Some artifact =>
            let! paamount :=
              on_artifact_amounts
                (objects_create same_artifact
                   (PlayerArtifactAmount.mk self artifact amount)) in
            ret (Some paamount)
        | None => raise ValueError
        end
    | _ =>
        let! obj := getattr_amount paamount in
        let paamount :=
          set_amount obj (PlayerArtifactAmount.amount obj.2 + amount) in
        let! _ := on_artifact_amounts (save same_artifact paamount) in
        ret (Some paamount)
    end.

Definition add_spell (self : nat) (spell : Spell.t) : M unit :=
  let! found :=
    try_except
      (let! psamount := get_spell_amount self spell in ret (Some psamount))
      (λ e, match e with
            | DoesNotExist => Some (
                let! _ :=
                  on_spell_amounts
                    (objects_create same_spell
                       (PlayerSpellAmount.mk self spell 1)) in
                ret None)
            | _ => None
            end) in
  match found with
  | None => ret tt
  | Some psamount =>
      on_spell_amounts
        (save same_spell
           (set_spell_amount psamount
              (PlayerSpellAmount.amount psamount.2 + 1)))
  end.

Definition cast_spell (self : nat) (spell : Spell.t) (source : nat) (due : Z)
    : M bool :=
  let! held :=
    try_except
      (let! psamount := get_spell_amount source spell in
       if decide (PlayerSpellAmount.amount psamount.2 > 0)
       then ret (Some psamount)
       else raise AssertionError)
      (λ e, match e with
            | DoesNotExist | AssertionError => Some (ret None)
            | _ => None
            end) in
  match held with
  | None => ret false
  | Some psamount =>
      try_except
        (let! psdue :=
           on_spell_dues
             (objects_create same_due
                (PlayerSpellDue.mk self spell source due)) in
         let! _ := post_cast psdue in
         let psamount :=
           set_spell_amount psamount
             (PlayerSpellAmount.amount psamount.2 - 1) in
         let! _ :=
           if decide (PlayerSpellAmount.amount psamount.2 = 0)
           then on_spell_amounts (λ tbl, (Ok tt, delete_obj psamount tbl))
           else on_spell_amounts (save same_spell psamount) in
         ret true)
        (λ _, Some (ret false))
  end.
End Player.

(** ** [PlayerGroup.sisters] *)

(** A [PlayerGroup] object in memory: primary key, field values and the
    [_sisters] attribute.  An object as the manager hands it out has the
    class attribute's value, the empty list. *)
Module PlayerGroupObject.
Record t : Type := mk {
  id : nat;
  fields : PlayerGroup.t;
  _sisters : list (Instance PlayerGroup.t)
}.
End PlayerGroupObject.

Definition loaded (obj : Instance PlayerGroup.t) : PlayerGroupObject.t :=
  PlayerGroupObject.mk obj.1 obj.2 [].

(** [self.playergroup_set.all()] of the group with primary key [pid]. *)
Definition children (pid : nat) (db : DB) : Table PlayerGroup.t :=
  objects_filter (λ r, PlayerGroup.parent r = Some pid) (playergroup_table db).

(** [queryset.exclude(id=i)] *)
Definition exclude_id {R} (i : nat) (tbl : Table R) : Table R :=
  filter (λ kv : nat * R, kv.1 ≠ i) tbl.

(** The property returns the list and leaves it in the object's
    [_sisters]; the database is read only.  Reading [self.parent] fetches
    the parent's row. *)
Definition sisters (self : PlayerGroupObject.t) (db : DB)
    : result (list (Instance PlayerGroup.t)) * PlayerGroupObject.t :=
  match PlayerGroupObject._sisters self with
  | [] =>
      match PlayerGroup.parent (PlayerGroupObject.fields self) with
      | Some pid =>
          match playergroup_table db !! pid with
          | Some _ =>
              let l :=
                map_to_list
                  (exclude_id (PlayerGroupObject.id self) (children pid db)) in
              (Ok l, PlayerGroupObject.mk (PlayerGroupObject.id self)
                       (PlayerGroupObject.fields self) l)
          | None => (Raise DoesNotExist, self)
          end
      | None =>
          let l :=
            map_to_list
              (exclude_id (PlayerGroupObject.id self)
                 (objects_filter
                    (λ r, PlayerGroup.gclass r =
                          PlayerGroup.gclass (PlayerGroupObject.fields self))
                    (playergroup_table db))) in
          (Ok l, PlayerGroupObject.mk (PlayerGroupObject.id self)
                   (PlayerGroupObject.fields self) l)
      end
  | _ :: _ => (Ok (PlayerGroupObject._sisters self), self)
  end.

(** The reading of [sisters] that keeps root groups only: other groups
    without a parent and of the same class. *)
Definition root_sisters (self : PlayerGroupObject.t) (db : DB)
    : list (Instance PlayerGroup.t) :=
  map_to_list
    (exclude_id (PlayerGroupObject.id self)
       (objects_filter
          (λ r, PlayerGroup.parent r = None ∧
                PlayerGroup.gclass r =
                  PlayerGroup.gclass (PlayerGroupObject.fields self))
          (playergroup_table db))).

(** The lookup finds [obj] and no other row. *)
Definition the_only {R} (P : R → Prop) (tbl : Table R) (obj : Instance R)
    : Prop :=
  tbl !! obj.1 = Some obj.2 ∧ P obj.2 ∧
  ∀ j r, tbl !! j = Some r → P r → j = obj.1.

(** The lookup finds no row. *)
Definition no_row {R} (P : R → Prop) (tbl : Table R) : Prop :=
  ∀ i r, tbl !! i = Some r → ¬ P r.

(** The invariant of the amount tables: every stored amount is at least 1. *)
Definition amounts_positive (db : DB) : Prop :=
  map_Forall (λ _ r, 1 ≤ PlayerArtifactAmount.amount r)
    (playerartifactamount_table db) ∧
  map_Forall (λ _ r, 1 ≤ PlayerSpellAmount.amount r)
    (playerspellamount_table db).

(** [player=p, spell=spell] on the active spells. *)
Definition due_of (p : nat) (spell : Spell.t) (r : PlayerSpellDue.t) : Prop :=
  PlayerSpellDue.player r = p ∧
  Spell.id (PlayerSpellDue.spell r) = Spell.id spell.

(** A table obeys its [unique_together] constraint. *)
Definition unique_together {R} (same : R → R → Prop) (tbl : Table R) : Prop :=
  ∀ i j r r', tbl !! i = Some r → tbl !! j = Some r' → same r r' → i = j.

(** [give_modifier] and then [use_modifier] of the same amount. *)
Definition give_then_use
    (get_artifact_for_modifier : string → nat → M (option Artifact.t))
    (self : nat) (modifier : string) (amount : Z)
    : M (Instance PlayerArtifactAmount.t) :=
  let! _ := give_modifier get_artifact_for_modifier self modifier amount in
  use_modifier self modifier amount.

(** One call of an accounting method, for a given [God]. *)
Inductive step
    (get_artifact_for_modifier : string → nat → M (option Artifact.t))
    (post_cast : Instance PlayerSpellDue.t → M unit) : DB → DB → Prop :=
  | step_give_modifier p m a db :
      step get_artifact_for_modifier post_cast db
        (give_modifier get_artifact_for_modifier p m a db).2
  | step_use_modifier p m a db :
      step get_artifact_for_modifier post_cast db (use_modifier p m a db).2
  | step_add_spell p s db :
      step get_artifact_for_modifier post_cast db (add_spell p s db).2
  | step_cast_spell p s source due db :
      step get_artifact_for_modifier post_cast db
        (cast_spell post_cast p s source due db).2.

(** ** Sample data *)

Definition shield : Artifact.t := Artifact.mk 1 "shield".
Definition freeze : Spell.t := Spell.mk 1 "freeze".

(** A [God] that knows the artifact [shield] only, and whose post-cast
    action does nothing. *)
Definition god_knows_shield : string → nat → M (option Artifact.t) :=
  λ modifier _, ret (if decide (modifier = "shield") then Some shield else None).
Definition god_idle : Instance PlayerSpellDue.t → M unit := λ _, ret tt.

(** Player 1 has three shields and two freeze spells to cast. *)
Definition db_shields : DB :=
  mkDB ∅ {[1%nat := PlayerArtifactAmount.mk 1 shield 3]}
       {[1%nat := PlayerSpellAmount.mk 1 freeze 2]} ∅.

(** Player 1 is frozen by player 2, who has one freeze spell left. *)
Definition db_frozen : DB :=
  mkDB ∅ ∅ {[1%nat := PlayerSpellAmount.mk 2 freeze 1]}
       {[1%nat := PlayerSpellDue.mk 1 freeze 2 100]}.

(** Two root groups and a subgroup of class 2, and a root group of
    class 1. *)
Definition series_a : PlayerGroup.t := PlayerGroup.mk 10 "series A" 2 None.
Definition series_b : PlayerGroup.t := PlayerGroup.mk 11 "series B" 2 None.
Definition group_a1 : PlayerGroup.t :=
  PlayerGroup.mk 12 "group A1" 2 (Some 1%nat).
Definition year_one : PlayerGroup.t := PlayerGroup.mk 13 "year one" 1 None.

Definition db_groups : DB :=
  mkDB (<[1%nat := series_a]> (<[2%nat := series_b]>
          (<[3%nat := group_a1]> {[4%nat := year_one]}))) ∅ ∅ ∅.

(** ** [Player.spells], [Player.proximate_group] and the profile hook *)

(** [Player.spells]: [self.playerspelldue_set.all()], the spells cast on
    the player. *)
Definition spells (self : nat) (db : DB) : Table PlayerSpellDue.t :=
  objects_filter (λ r, PlayerSpellDue.player r = self)
    (playerspelldue_table db).

(** [self.groups]: the many-to-many field joins the player to the rows of
    [PlayerGroup] whose primary keys the join table lists for the player;
    [groups] is that list of keys. *)
Definition player_groups (groups : gset nat) (db : DB) : Table PlayerGroup.t :=
  filter (λ kv : nat * PlayerGroup.t, kv.1 ∈ groups) (playergroup_table db).

(** [queryset.aggregate(gclass=models.Min('gclass'))['gclass']]: [None] on
    an empty queryset. *)
Definition aggregate_min_gclass (tbl : Table PlayerGroup.t) : option Z :=
  match map_to_list tbl with
  | [] => None
  | g :: gs =>
      Some (foldr (λ x m, Z.min (PlayerGroup.gclass x.2) m)
              (PlayerGroup.gclass g.2) gs)
  end.

(** What [proximate_group] comes to: [None], a group, or the [IndexError]
    of [[0]] on an empty queryset. *)
Inductive proximate_result : Type :=
  | ProximateNone
  | ProximateGroup (obj : Instance PlayerGroup.t)
  | ProximateIndexError.

Definition proximate_group (groups : gset nat) (db : DB) : proximate_result :=
  match aggregate_min_gclass (player_groups groups db) with
  | None => ProximateNone
  | Some gclass =>
      match map_to_list
              (objects_filter (λ r, PlayerGroup.gclass r = gclass)
                 (player_groups groups db)) with
      | [] => ProximateIndexError
      | obj :: _ => ProximateGroup obj
      end
  end.

Module Player.
(** [points] (a float) is left out; [level_no] and [last_seen] may be
    null. *)
Record t : Type := mk {
  user : nat;
  level_no : option Z;
  last_seen : option Z
}.
End Player.

(** [user] is declared [unique=True]. *)
Definition same_user (r r' : Player.t) : Prop := Player.user r = Player.user r'.

#[global] Instance same_user_dec r r' : Decision (same_user r r').
Proof. unfold same_user. apply _. Defined.

(** [Player.objects.get_or_create(user=instance)]: the player of the user,
    made with the field defaults when there is none; an [IntegrityError]
    of the insert is answered by a second look. *)
Definition get_or_create (instance : nat) (tbl : Table Player.t)
    : result (Instance Player.t * bool) * Table Player.t :=
  match objects_get (λ r, Player.user r = instance) tbl with
  | Ok obj => (Ok (obj, false), tbl)
  | Raise DoesNotExist =>
      match objects_create same_user (Player.mk instance (Some 1) None) tbl with
      | (Ok obj, tbl') => (Ok (obj, true), tbl')
      | (Raise IntegrityError, tbl') =>
          match objects_get (λ r, Player.user r = instance) tbl' with
          | Ok obj => (Ok (obj, false), tbl')
          | Raise DoesNotExist => (Raise IntegrityError, tbl')
          | Raise e => (Raise e, tbl')
          end
      | (Raise e, tbl') => (Raise e, tbl')
      end
  | Raise e => (Raise e, tbl)
  end.

(** The [post_save] receiver connected to [User]. *)
Definition user_post_save (instance : nat) (tbl : Table Player.t)
    : result unit * Table Player.t :=
  match get_or_create instance tbl with
  | (Ok _, tbl') => (Ok tt, tbl')
  | (Raise e, tbl') => (Raise e, tbl')
  end.

(** [add_spell] by the caster and then [cast_spell] on a target. *)
Definition add_then_cast (post_cast : Instance PlayerSpellDue.t → M unit)
    (self : nat) (spell : Spell.t) (source : nat) (due : Z) : M bool :=
  let! _ := add_spell source spell in
  cast_spell post_cast self spell source due.

(** Two casts of the same spell on the same target. *)
Definition cast_twice (post_cast : Instance PlayerSpellDue.t → M unit)
    (self : nat) (spell : Spell.t) (source : nat) (due due' : Z) : M bool :=
  let! _ := cast_spell post_cast self spell source due in
  cast_spell post_cast self spell source due'.

(** [use_modifier] and then [give_modifier] of the same amount. *)
Definition use_then_give
    (get_artifact_for_modifier : string → nat → M (option Artifact.t))
    (self : nat) (modifier : string) (amount : Z)
    : M (option (Instance PlayerArtifactAmount.t)) :=
  let! _ := use_modifier self modifier amount in
  give_modifier get_artifact_for_modifier self modifier amount.

(** ** More sample data *)

(** A [God] whose post-cast action fails. *)
Definition god_fails : Instance PlayerSpellDue.t → M unit :=
  λ _, raise GodError.

(** An artifact of another group that is called [shield] too. *)
Definition shield' : Artifact.t := Artifact.mk 2 "shield".

(** Player 1 has amounts of both artifacts called [shield]. *)
Definition db_two_shields : DB :=
  mkDB ∅ (<[1%nat := PlayerArtifactAmount.mk 1 shield 3]>
            {[2%nat := PlayerArtifactAmount.mk 1 shield' 1]}) ∅ ∅.

(** The players of users 7 and 8. *)
Definition players : Table Player.t :=
  <[1%nat := Player.mk 7 (Some 3) None]> {[2%nat := Player.mk 8 (Some 1) None]}.

(** * Properties *)

(** ** The object manager *)

Section ManagerFacts.
Context {R : Type} (P : R → Prop) `{!∀ r, Decision (P r)}.
Implicit Types (tbl : Table R) (i : nat) (r : R).

Lemma objects_filter_lookup tbl i r :
  objects_filter P tbl !! i = Some r ↔ tbl !! i = Some r ∧ P r.
Proof. unfold objects_filter. by rewrite map_lookup_filter_Some. Qed.

Lemma objects_get_Ok tbl i r :
  objects_get P tbl = Ok (i, r) ↔ objects_filter P tbl = {[i := r]}.
Proof.
  unfold objects_get. split.
  - destruct (map_to_list (objects_filter P tbl)) as [|x [|y l]] eqn:E;
      [done| |done].
    intros [= ->]. rewrite <- (list_to_map_to_list (objects_filter P tbl)), E.
    simpl. by rewrite insert_empty.
  - intros ->. by rewrite map_to_list_singleton.
Qed.

Lemma objects_get_DoesNotExist tbl :
  objects_get P tbl = Raise DoesNotExist ↔ objects_filter P tbl = ∅.
Proof.
  unfold objects_get. split.
  - destruct (map_to_list (objects_filter P tbl)) as [|x [|y l]] eqn:E;
      [|done|done].
    intros _. by apply map_to_list_empty_iff.
  - intros ->. by rewrite map_to_list_empty.
Qed.

Lemma objects_filter_empty tbl :
  objects_filter P tbl = ∅ ↔ ∀ i r, tbl !! i = Some r → ¬ P r.
Proof.
  split.
  - intros E i r Hi HP.
    assert (Hf : objects_filter P tbl !! i = Some r)
      by (by apply objects_filter_lookup).
    by rewrite E in Hf.
  - intros Hno. apply map_eq. intros i. rewrite lookup_empty.
    destruct (objects_filter P tbl !! i) as [r|] eqn:E; [|done].
    apply objects_filter_lookup in E as [E1 E2]. by destruct (Hno _ _ E1).
Qed.

Lemma objects_filter_singleton tbl i r :
  objects_filter P tbl = {[i := r]} ↔
  tbl !! i = Some r ∧ P r ∧ ∀ j r', tbl !! j = Some r' → P r' → j = i.
Proof.
  split.
  - intros E. assert (Hf : objects_filter P tbl !! i = Some r)
      by (rewrite E; apply lookup_singleton_eq).
    apply objects_filter_lookup in Hf as [H1 H2]. split_and!; [done..|].
    intros j r' Hj HP.
    assert (Hf : objects_filter P tbl !! j = Some r')
      by (by apply objects_filter_lookup).
    rewrite E in Hf. apply lookup_singleton_Some in Hf. by destruct Hf.
  - intros (H1 & H2 & H3). apply map_eq. intros j.
    destruct (decide (j = i)) as [->|Hne].
    + rewrite lookup_singleton_eq. by apply objects_filter_lookup.
    + rewrite lookup_singleton_ne by done.
      destruct (objects_filter P tbl !! j) as [r'|] eqn:E; [|done].
      apply objects_filter_lookup in E as [E1 E2].
      by specialize (H3 _ _ E1 E2).
Qed.
End ManagerFacts.

Section LookupFacts.
Context {R : Type} (P : R → Prop) `{!∀ r, Decision (P r)}.
Implicit Types (tbl : Table R) (obj : Instance R).

Lemma objects_get_the_only tbl obj :
  objects_get P tbl = Ok obj ↔ the_only P tbl obj.
Proof.
  destruct obj as [i r]. rewrite objects_get_Ok, objects_filter_singleton.
  done.
Qed.

Lemma objects_get_no_row tbl :
  objects_get P tbl = Raise DoesNotExist ↔ no_row P tbl.
Proof. by rewrite objects_get_DoesNotExist, objects_filter_empty. Qed.

Lemma get_the_only tbl obj : objects_get P tbl = Ok obj → the_only P tbl obj.
Proof. apply objects_get_the_only. Qed.

Lemma get_no_row tbl : objects_get P tbl = Raise DoesNotExist → no_row P tbl.
Proof. apply objects_get_no_row. Qed.

Lemma the_only_get tbl obj : the_only P tbl obj → objects_get P tbl = Ok obj.
Proof. apply objects_get_the_only. Qed.

Lemma no_row_get tbl : no_row P tbl → objects_get P tbl = Raise DoesNotExist.
Proof. apply objects_get_no_row. Qed.

Lemma the_only_insert tbl obj r' :
  the_only P tbl obj → P r' → the_only P (<[obj.1 := r']> tbl) (obj.1, r').
Proof.
  intros (Hl & HP & Hu) HP'. split_and!; simpl.
  - apply lookup_insert_eq.
  - done.
  - intros j r. destruct (decide (j = obj.1)) as [->|Hne]; [done|].
    rewrite lookup_insert_ne by done. apply Hu.
Qed.

Lemma no_row_delete tbl obj :
  the_only P tbl obj → no_row P (delete obj.1 tbl).
Proof.
  intros (Hl & HP & Hu) j r Hj HPr.
  destruct (decide (j = obj.1)) as [->|Hne].
  - by rewrite lookup_delete_eq in Hj.
  - rewrite lookup_delete_ne in Hj by done. by specialize (Hu _ _ Hj HPr).
Qed.

Lemma the_only_create tbl r :
  no_row P tbl → P r → the_only P (<[next_id tbl := r]> tbl) (next_id tbl, r).
Proof.
  intros Hno HP. split_and!; simpl.
  - apply lookup_insert_eq.
  - done.
  - intros j r'. destruct (decide (j = next_id tbl)) as [->|Hne]; [done|].
    rewrite lookup_insert_ne by done. intros Hj HP'. by destruct (Hno _ _ Hj).
Qed.
End LookupFacts.

Lemma next_id_fresh {R} (tbl : Table R) : tbl !! next_id tbl = None.
Proof. apply not_elem_of_dom. unfold next_id. apply is_fresh. Qed.

(** ** Running the monad *)

Lemma bind_Ok {A B} (m : M A) (k : A → M B) db a db' :
  m db = (Ok a, db') → bind m k db = k a db'.
Proof. unfold bind. by intros ->. Qed.

Lemma bind_Raise {A B} (m : M A) (k : A → M B) db e db' :
  m db = (Raise e, db') → bind m k db = (Raise e, db').
Proof. unfold bind. by intros ->. Qed.

Lemma bind_ret {A B} (a : A) (k : A → M B) db : bind (ret a) k db = k a db.
Proof. done. Qed.

Lemma on_artifact_amounts_eq {A} f db :
  @on_artifact_amounts A f db =
  ((f (playerartifactamount_table db)).1,
   mkDB (playergroup_table db) (f (playerartifactamount_table db)).2
        (playerspellamount_table db) (playerspelldue_table db)).
Proof. unfold on_artifact_amounts. by destruct (f _). Qed.

Lemma on_spell_amounts_eq {A} f db :
  @on_spell_amounts A f db =
  ((f (playerspellamount_table db)).1,
   mkDB (playergroup_table db) (playerartifactamount_table db)
        (f (playerspellamount_table db)).2 (playerspelldue_table db)).
Proof. unfold on_spell_amounts. by destruct (f _). Qed.

Lemma on_spell_dues_eq {A} f db :
  @on_spell_dues A f db =
  ((f (playerspelldue_table db)).1,
   mkDB (playergroup_table db) (playerartifactamount_table db)
        (playerspellamount_table db) (f (playerspelldue_table db)).2).
Proof. unfold on_spell_dues. by destruct (f _). Qed.

Lemma save_unique_together {R} (same : R → R → Prop)
    `{!∀ r r', Decision (same r r')} (tbl : Table R) i r r' :
  unique_together same tbl → tbl !! i = Some r →
  (∀ x, same r' x → same r x) →
  save same (i, r') tbl = (Ok tt, <[i := r']> tbl).
Proof.
  intros Hu Hi Hs. unfold save. rewrite decide_False; [done|].
  intros (k & x & Hk & Hne & Hsame). simpl in *.
  apply Hs in Hsame. by specialize (Hu _ _ _ _ Hi Hk Hsame).
Qed.

Lemma unique_together_insert {R} (same : R → R → Prop) (tbl : Table R) i r r' :
  unique_together same tbl → tbl !! i = Some r →
  (∀ x, same r' x ↔ same r x) → (∀ x, same x r' ↔ same x r) →
  unique_together same (<[i := r']> tbl).
Proof.
  intros Hu Hi Hl Hr i1 i2 x1 x2 H1 H2 Hs.
  destruct (decide (i1 = i)) as [->|N1], (decide (i2 = i)) as [->|N2];
    [done|..].
  - rewrite lookup_insert_eq in H1. rewrite lookup_insert_ne in H2 by done.
    injection H1 as <-. apply Hl in Hs. by apply (Hu i i2 r x2).
  - rewrite lookup_insert_ne in H1 by done. rewrite lookup_insert_eq in H2.
    injection H2 as <-. apply Hr in Hs. by apply (Hu i1 i x1 r).
  - rewrite lookup_insert_ne in H1, H2 by done. by apply (Hu _ _ _ _ H1 H2).
Qed.

(** ** Reading the tables through the monad *)

Lemma get_artifact_amount_eq p m db :
  get_artifact_amount p m db =
  (objects_get (artifact_named p m) (playerartifactamount_table db), db).
Proof. by destruct db. Qed.

Lemma get_spell_due_eq p m db :
  get_spell_due p m db =
  (objects_get (due_named p m) (playerspelldue_table db), db).
Proof. by destruct db. Qed.

Lemma get_spell_amount_eq p s db :
  get_spell_amount p s db =
  (objects_get (spell_of p s) (playerspellamount_table db), db).
Proof. by destruct db. Qed.

Lemma has_modifier_artifact p m db obj :
  the_only (artifact_named p m) (playerartifactamount_table db) obj →
  has_modifier p m db = (Ok (ArtifactAmountRecord obj), db).
Proof.
  intros H. apply (the_only_get _) in H.
  unfold has_modifier, try_except, bind.
  by rewrite get_artifact_amount_eq, H.
Qed.

Lemma has_modifier_due p m db obj :
  no_row (artifact_named p m) (playerartifactamount_table db) →
  the_only (due_named p m) (playerspelldue_table db) obj →
  has_modifier p m db = (Ok (SpellDueRecord obj), db).
Proof.
  intros H1 H2. apply (no_row_get _) in H1. apply (the_only_get _) in H2.
  unfold has_modifier, try_except, bind.
  by rewrite get_artifact_amount_eq, H1, get_spell_due_eq, H2.
Qed.

Lemma has_modifier_none p m db :
  no_row (artifact_named p m) (playerartifactamount_table db) →
  no_row (due_named p m) (playerspelldue_table db) →
  has_modifier p m db = (Ok NotFound, db).
Proof.
  intros H1 H2. apply (no_row_get _) in H1, H2.
  unfold has_modifier, try_except, bind.
  by rewrite get_artifact_amount_eq, H1, get_spell_due_eq, H2.
Qed.

(** ** [has_modifier] *)

(** C7: [has_modifier] returns the player's artifact amount for the name
    when there is one, whatever spells are active; without one, the active
    spell of that name when there is one; and otherwise [False]. *)
Theorem has_modifier_prefers_artifact p m db :
  (∀ obj, the_only (artifact_named p m) (playerartifactamount_table db) obj →
          has_modifier p m db = (Ok (ArtifactAmountRecord obj), db)) ∧
  (∀ obj, no_row (artifact_named p m) (playerartifactamount_table db) →
          the_only (due_named p m) (playerspelldue_table db) obj →
          has_modifier p m db = (Ok (SpellDueRecord obj), db)) ∧
  (no_row (artifact_named p m) (playerartifactamount_table db) →
   no_row (due_named p m) (playerspelldue_table db) →
   has_modifier p m db = (Ok NotFound, db)).
Proof.
  split_and!.
  - intros obj. apply has_modifier_artifact.
  - intros obj. apply has_modifier_due.
  - apply has_modifier_none.
Qed.

(** ** [give_modifier] and [use_modifier] *)

Section Accounting.
Variable get_artifact_for_modifier : string → nat → M (option Artifact.t).

(** C8: [give_modifier] of a zero or negative amount returns [None] and
    leaves the database as it is, for any [God]. *)
Theorem give_modifier_nonpositive_noop p m a db :
  a ≤ 0 → give_modifier get_artifact_for_modifier p m a db = (Ok None, db).
Proof. intros Ha. unfold give_modifier. by rewrite decide_True. Qed.

(** C9: when the only match for the name is an active spell, both
    [give_modifier] of a positive amount and [use_modifier] raise
    [AttributeError] and write nothing. *)
Theorem modifier_on_spell_due_attribute_error p m a db obj :
  no_row (artifact_named p m) (playerartifactamount_table db) →
  the_only (due_named p m) (playerspelldue_table db) obj →
  (0 < a →
   give_modifier get_artifact_for_modifier p m a db =
     (Raise AttributeError, db)) ∧
  use_modifier p m a db = (Raise AttributeError, db).
Proof.
  intros H1 H2. pose proof (has_modifier_due _ _ _ _ H1 H2) as Hm. split.
  - intros Ha. unfold give_modifier. rewrite decide_False by lia.
    unfold bind. by rewrite Hm.
  - unfold use_modifier, bind. by rewrite Hm.
Qed.

(** X8: with an artifact amount smaller than the request, [use_modifier]
    raises [InsufficientAmount] and writes nothing. *)
Lemma use_modifier_insufficient p m a db obj :
  the_only (artifact_named p m) (playerartifactamount_table db) obj →
  a > PlayerArtifactAmount.amount obj.2 →
  use_modifier p m a db = (Raise InsufficientAmount, db).
Proof.
  intros H Ha. unfold use_modifier, bind.
  rewrite (has_modifier_artifact _ _ _ _ H). simpl.
  by rewrite decide_True.
Qed.

(** C1, where the code departs from it: with no record at all for the
    name, [use_modifier] raises [AttributeError], not
    [InsufficientAmount]; the database is left as it is. *)
Theorem use_modifier_no_record_attribute_error p m a db :
  no_row (artifact_named p m) (playerartifactamount_table db) →
  no_row (due_named p m) (playerspelldue_table db) →
  use_modifier p m a db = (Raise AttributeError, db).
Proof.
  intros H1 H2. unfold use_modifier, bind.
  by rewrite (has_modifier_none _ _ _ H1 H2).
Qed.

(** What [give_modifier] does to an artifact amount that exists. *)
Lemma give_modifier_existing p m a db obj :
  the_only (artifact_named p m) (playerartifactamount_table db) obj →
  unique_together same_artifact (playerartifactamount_table db) →
  0 < a →
  give_modifier get_artifact_for_modifier p m a db =
  (Ok (Some (set_amount obj (PlayerArtifactAmount.amount obj.2 + a))),
   mkDB (playergroup_table db)
        (<[obj.1 := (set_amount obj (PlayerArtifactAmount.amount obj.2 + a)).2]>
           (playerartifactamount_table db))
        (playerspellamount_table db) (playerspelldue_table db)).
Proof.
  intros Ho Hu Ha. destruct obj as [i r]. pose proof Ho as (Hi & _).
  unfold give_modifier. rewrite decide_False by lia.
  rewrite (bind_Ok _ _ _ _ _ (has_modifier_artifact _ _ _ _ Ho)).
  simpl. rewrite bind_ret. erewrite bind_Ok; [done|].
  rewrite on_artifact_amounts_eq. unfold set_amount. simpl in *.
  by rewrite (save_unique_together _ _ _ r).
Qed.

(** What [use_modifier] does to an artifact amount that covers the
    request. *)
Lemma use_modifier_sufficient p m a db obj :
  the_only (artifact_named p m) (playerartifactamount_table db) obj →
  unique_together same_artifact (playerartifactamount_table db) →
  a ≤ PlayerArtifactAmount.amount obj.2 →
  use_modifier p m a db =
  (Ok (set_amount obj (PlayerArtifactAmount.amount obj.2 - a)),
   mkDB (playergroup_table db)
        (if decide (PlayerArtifactAmount.amount obj.2 - a = 0)
         then delete obj.1 (playerartifactamount_table db)
         else <[obj.1 :=
                  (set_amount obj (PlayerArtifactAmount.amount obj.2 - a)).2]>
                (playerartifactamount_table db))
        (playerspellamount_table db) (playerspelldue_table db)).
Proof.
  intros Ho Hu Ha. destruct obj as [i r]. pose proof Ho as (Hi & _).
  simpl in *. unfold use_modifier.
  rewrite (bind_Ok _ _ _ _ _ (has_modifier_artifact _ _ _ _ Ho)).
  simpl. rewrite bind_ret. simpl. rewrite decide_False by lia.
  destruct (decide (PlayerArtifactAmount.amount r - a = 0)) as [E|E].
  - erewrite bind_Ok; [done|]. by rewrite on_artifact_amounts_eq.
  - erewrite bind_Ok; [done|]. rewrite on_artifact_amounts_eq.
    unfold set_amount. simpl in *.
    by rewrite (save_unique_together _ _ _ r).
Qed.

(** X9: granting [a] on top of an amount of at least 1 and using [a]
    again gives the very database back. *)
Lemma give_then_use_existing p m a db obj :
  the_only (artifact_named p m) (playerartifactamount_table db) obj →
  unique_together same_artifact (playerartifactamount_table db) →
  1 ≤ PlayerArtifactAmount.amount obj.2 → 0 < a →
  give_then_use get_artifact_for_modifier p m a db = (Ok obj, db).
Proof.
  intros Ho Hu Hn Ha. destruct obj as [i r].
  pose proof Ho as (Hi & HP & _). simpl in *.
  unfold give_then_use.
  rewrite (bind_Ok _ _ _ _ _ (give_modifier_existing _ _ _ _ _ Ho Hu Ha)).
  simpl. set (r1 := PlayerArtifactAmount.mk _ _ _). set (db1 := mkDB _ _ _ _).
  assert (Ho1 : the_only (artifact_named p m)
                  (playerartifactamount_table db1) (i, r1)).
  { apply (the_only_insert _ _ (i, r) r1 Ho). by destruct HP. }
  rewrite (use_modifier_sufficient _ _ _ _ _ Ho1).
  - simpl. rewrite decide_False by lia. rewrite insert_insert_eq.
    replace (PlayerArtifactAmount.amount r + a - a)
      with (PlayerArtifactAmount.amount r) by lia.
    destruct r as [rp ra rn]. simpl.
    rewrite insert_id by done. by destruct db.
  - by apply (unique_together_insert _ _ _ r).
  - simpl. lia.
Qed.

(** What [give_modifier] does when the name matches nothing and [God]
    names an artifact the player has no amount of. *)
Lemma give_modifier_new p m a db art :
  no_row (artifact_named p m) (playerartifactamount_table db) →
  no_row (due_named p m) (playerspelldue_table db) →
  get_artifact_for_modifier m p db = (Ok (Some art), db) →
  no_row (same_artifact (PlayerArtifactAmount.mk p art a))
    (playerartifactamount_table db) →
  0 < a →
  give_modifier get_artifact_for_modifier p m a db =
  (Ok (Some (next_id (playerartifactamount_table db),
             PlayerArtifactAmount.mk p art a)),
   mkDB (playergroup_table db)
        (<[next_id (playerartifactamount_table db) :=
             PlayerArtifactAmount.mk p art a]>
           (playerartifactamount_table db))
        (playerspellamount_table db) (playerspelldue_table db)).
Proof.
  intros H1 H2 Hg Hn Ha. unfold give_modifier.
  rewrite decide_False by lia.
  rewrite (bind_Ok _ _ _ _ _ (has_modifier_none _ _ _ H1 H2)).
  rewrite (bind_Ok _ _ _ _ _ Hg).
  erewrite bind_Ok; [done|]. rewrite on_artifact_amounts_eq.
  unfold objects_create. rewrite decide_False; [done|].
  intros (k & x & Hk & Hs). by destruct (Hn _ _ Hk).
Qed.

(** X10: a first grant of [a] followed by using [a] deletes the new
    record: the database is the one before the grant, where the name
    matches nothing. *)
Lemma give_then_use_new p m a db art :
  no_row (artifact_named p m) (playerartifactamount_table db) →
  no_row (due_named p m) (playerspelldue_table db) →
  unique_together same_artifact (playerartifactamount_table db) →
  get_artifact_for_modifier m p db = (Ok (Some art), db) →
  Artifact.name art = m →
  no_row (same_artifact (PlayerArtifactAmount.mk p art a))
    (playerartifactamount_table db) →
  0 < a →
  give_then_use get_artifact_for_modifier p m a db =
    (Ok (next_id (playerartifactamount_table db),
         PlayerArtifactAmount.mk p art 0), db) ∧
  has_modifier p m db = (Ok NotFound, db).
Proof.
  intros H1 H2 Hu Hg Hname Hn Ha. split; [|by apply has_modifier_none].
  unfold give_then_use.
  rewrite (bind_Ok _ _ _ _ _ (give_modifier_new _ _ _ _ _ H1 H2 Hg Hn Ha)).
  set (j := next_id _). set (r1 := PlayerArtifactAmount.mk _ _ _).
  set (db1 := mkDB _ _ _ _).
  assert (Ho1 : the_only (artifact_named p m)
                  (playerartifactamount_table db1) (j, r1))
    by (by apply the_only_create).
  rewrite (use_modifier_sufficient _ _ _ _ _ Ho1).
  - simpl. rewrite decide_True by lia. rewrite Z.sub_diag.
    rewrite delete_insert_id by apply next_id_fresh. by destruct db.
  - intros i1 i2 x1 x2 Hx1 Hx2 Hs. simpl in *.
    destruct (decide (i1 = j)) as [->|N1], (decide (i2 = j)) as [->|N2];
      [done|..].
    + rewrite lookup_insert_eq in Hx1. injection Hx1 as <-.
      rewrite lookup_insert_ne in Hx2 by done. by destruct (Hn _ _ Hx2).
    + rewrite lookup_insert_eq in Hx2. injection Hx2 as <-.
      rewrite lookup_insert_ne in Hx1 by done.
      destruct (Hn _ _ Hx1). destruct Hs as [Hs1 Hs2]. by split.
    + rewrite lookup_insert_ne in Hx1, Hx2 by done.
      by apply (Hu _ _ _ _ Hx1 Hx2).
  - simpl. lia.
Qed.
End Accounting.

(** C3, where the code departs from it: for a player on whom a spell of
    that name is active and who has no artifact amount, the grant itself
    raises [AttributeError]; nothing is granted and nothing is used. *)
Theorem give_then_use_fails_on_spell_due :
  give_then_use god_knows_shield 1 "freeze" 1 db_frozen =
  (Raise AttributeError, db_frozen).
Proof. vm_compute. reflexivity. Qed.

(** ** [cast_spell] *)

Section Casting.
Variable post_cast : Instance PlayerSpellDue.t → M unit.

(** C5: when the source has no amount of the spell, or a stored amount of
    zero or less, [cast_spell] returns [False] and writes nothing. *)
Theorem cast_spell_without_spell self spell source due db :
  no_row (spell_of source spell) (playerspellamount_table db) ∨
  (∃ obj, the_only (spell_of source spell) (playerspellamount_table db) obj ∧
          PlayerSpellAmount.amount obj.2 ≤ 0) →
  cast_spell post_cast self spell source due db = (Ok false, db).
Proof.
  intros [Hno|(obj & Ho & Hle)]; unfold cast_spell, try_except, bind.
  - apply (no_row_get _) in Hno. by rewrite get_spell_amount_eq, Hno.
  - apply (the_only_get _) in Ho. rewrite get_spell_amount_eq, Ho.
    by rewrite decide_False by lia.
Qed.

(** The first [try] of [cast_spell] when the source has the spell. *)
Lemma cast_spell_held self spell source due db obj :
  the_only (spell_of source spell) (playerspellamount_table db) obj →
  1 ≤ PlayerSpellAmount.amount obj.2 →
  cast_spell post_cast self spell source due db =
  try_except
    (let! psdue :=
       on_spell_dues
         (objects_create same_due (PlayerSpellDue.mk self spell source due)) in
     let! _ := post_cast psdue in
     let psamount :=
       set_spell_amount obj (PlayerSpellAmount.amount obj.2 - 1) in
     let! _ :=
       if decide (PlayerSpellAmount.amount psamount.2 = 0)
       then on_spell_amounts (λ tbl, (Ok tt, delete_obj psamount tbl))
       else on_spell_amounts (save same_spell psamount) in
     ret true)
    (λ _, Some (ret false)) db.
Proof.
  intros Ho Hn. apply (the_only_get _) in Ho.
  unfold cast_spell, try_except, bind.
  rewrite get_spell_amount_eq, Ho. by rewrite decide_True by lia.
Qed.

(** C10: when a spell-due record of the target for the spell exists
    already, the [unique_together] constraint refuses the new one:
    [cast_spell] returns [False] and writes nothing, though the source has
    the spell. *)
Theorem cast_spell_already_active self spell source due db obj j r :
  the_only (spell_of source spell) (playerspellamount_table db) obj →
  1 ≤ PlayerSpellAmount.amount obj.2 →
  playerspelldue_table db !! j = Some r → due_of self spell r →
  cast_spell post_cast self spell source due db = (Ok false, db).
Proof.
  intros Ho Hn Hj Hr. rewrite (cast_spell_held _ _ _ _ _ _ Ho Hn).
  unfold try_except, bind. rewrite on_spell_dues_eq. unfold objects_create.
  rewrite decide_True; [by destruct db|].
  exists j, r. split; [done|]. destruct Hr as [Hr1 Hr2]. by split.
Qed.
(** C4: when the source has [n ≥ 1] of the spell, the target has no active
    effect of that spell, and the post-cast action of [God] returns
    leaving the spell tables as they are, [cast_spell] returns [True];
    the spell-due table gains exactly one row, with the target, the spell,
    the source and the expiry given; the source's amount row holds [n - 1],
    and is deleted when that is zero. *)
Theorem cast_spell_success self spell source due db obj db2 :
  let psdue :=
    (next_id (playerspelldue_table db),
     PlayerSpellDue.mk self spell source due) in
  let db1 :=
    mkDB (playergroup_table db) (playerartifactamount_table db)
         (playerspellamount_table db)
         (<[psdue.1 := psdue.2]> (playerspelldue_table db)) in
  the_only (spell_of source spell) (playerspellamount_table db) obj →
  1 ≤ PlayerSpellAmount.amount obj.2 →
  no_row (due_of self spell) (playerspelldue_table db) →
  post_cast psdue db1 = (Ok tt, db2) →
  playerspellamount_table db2 = playerspellamount_table db1 →
  playerspelldue_table db2 = playerspelldue_table db1 →
  ∃ db',
    cast_spell post_cast self spell source due db = (Ok true, db') ∧
    playerspelldue_table db !! psdue.1 = None ∧
    playerspelldue_table db' =
      <[psdue.1 := psdue.2]> (playerspelldue_table db) ∧
    playerspellamount_table db' =
      (if decide (PlayerSpellAmount.amount obj.2 - 1 = 0)
       then delete obj.1 (playerspellamount_table db)
       else <[obj.1 :=
                (set_spell_amount obj (PlayerSpellAmount.amount obj.2 - 1)).2]>
              (playerspellamount_table db)) ∧
    (PlayerSpellAmount.amount obj.2 = 1 →
     no_row (spell_of source spell) (playerspellamount_table db')) ∧
    (1 < PlayerSpellAmount.amount obj.2 →
     the_only (spell_of source spell) (playerspellamount_table db')
       (set_spell_amount obj (PlayerSpellAmount.amount obj.2 - 1))).
Proof.
  intros psdue db1 Ho Hn Hfree Hpost Hamt Hdue.
  destruct obj as [i r]. pose proof Ho as (Hi & HP & Huniq). simpl in *.
  rewrite (cast_spell_held _ _ _ _ _ _ Ho Hn). unfold try_except.
  assert (Hcreate :
    on_spell_dues
      (objects_create same_due (PlayerSpellDue.mk self spell source due)) db
    = (Ok psdue, db1)).
  { rewrite on_spell_dues_eq. unfold objects_create.
    rewrite decide_False; [done|].
    intros (k & x & Hk & Hs). destruct (Hfree _ _ Hk).
    destruct Hs as [Hs1 Hs2]. by split. }
  rewrite (bind_Ok _ _ _ _ _ Hcreate), (bind_Ok _ _ _ _ _ Hpost).
  unfold set_spell_amount. simpl.
  destruct (decide (PlayerSpellAmount.amount r - 1 = 0)) as [E|E].
  - erewrite bind_Ok; [|by rewrite on_spell_amounts_eq]. simpl.
    eexists. split; [done|]. simpl. rewrite Hamt, Hdue. simpl.
    split_and!; [apply next_id_fresh|done|done| |intros; lia].
    intros _. apply (no_row_delete _ _ (i, r) Ho).
  - set (r1 := PlayerSpellAmount.mk _ _ _).
    assert (Hsave : save same_spell (i, r1) (playerspellamount_table db2)
                    = (Ok tt, <[i := r1]> (playerspellamount_table db))).
    { rewrite Hamt. simpl. unfold save. rewrite decide_False; [done|].
      intros (k & x & Hk & Hne & Hs). simpl in *. apply Hne.
      apply (Huniq k x Hk). destruct HP as [HP1 HP2], Hs as [Hs1 Hs2].
      simpl in *. split; congruence. }
    erewrite bind_Ok; [|by rewrite on_spell_amounts_eq, Hsave]. simpl.
    eexists. split; [done|]. simpl. rewrite Hdue. simpl.
    split_and!; [apply next_id_fresh|done|done|intros; lia|].
    intros _. apply (the_only_insert _ _ (i, r) r1 Ho). by destruct HP.
Qed.
End Casting.

(** ** The amounts stay positive *)

Section TableInvariant.
Context {R : Type} (Q : nat → R → Prop).
Context (same : R → R → Prop) `{!∀ r r', Decision (same r r')}.
Implicit Types (tbl : Table R) (obj : Instance R).

Lemma save_Forall obj tbl :
  map_Forall Q tbl → Q obj.1 obj.2 → map_Forall Q (save same obj tbl).2.
Proof.
  intros Ht Ho. unfold save. case_decide; simpl; [done|].
  by apply map_Forall_insert_2.
Qed.

Lemma objects_create_Forall r tbl :
  map_Forall Q tbl → (∀ i, Q i r) →
  map_Forall Q (objects_create same r tbl).2.
Proof.
  intros Ht Hr. unfold objects_create. case_decide; simpl; [done|].
  by apply map_Forall_insert_2.
Qed.

Lemma delete_obj_Forall obj tbl :
  map_Forall Q tbl → map_Forall Q (delete_obj obj tbl).
Proof. apply map_Forall_delete. Qed.
End TableInvariant.

Lemma objects_get_lookup {R} (P : R → Prop) `{!∀ r, Decision (P r)}
    (tbl : Table R) obj :
  objects_get P tbl = Ok obj → tbl !! obj.1 = Some obj.2.
Proof. intros Hget. by apply objects_get_the_only in Hget as (? & _). Qed.

Lemma on_artifact_amounts_positive {A} f db :
  amounts_positive db →
  map_Forall (λ _ r, 1 ≤ PlayerArtifactAmount.amount r)
    (f (playerartifactamount_table db)).2 →
  amounts_positive (@on_artifact_amounts A f db).2.
Proof. intros [_ H2] H1. rewrite on_artifact_amounts_eq. by split. Qed.

Lemma on_spell_amounts_positive {A} f db :
  amounts_positive db →
  map_Forall (λ _ r, 1 ≤ PlayerSpellAmount.amount r)
    (f (playerspellamount_table db)).2 →
  amounts_positive (@on_spell_amounts A f db).2.
Proof. intros [H1 _] H2. rewrite on_spell_amounts_eq. by split. Qed.

Lemma on_spell_dues_positive {A} f db :
  amounts_positive db → amounts_positive (@on_spell_dues A f db).2.
Proof. intros [H1 H2]. rewrite on_spell_dues_eq. by split. Qed.

(** [has_modifier] only reads, and the artifact amount it returns is a
    row of the table. *)
Lemma has_modifier_reads p m db :
  (has_modifier p m db).2 = db ∧
  ∀ obj, (has_modifier p m db).1 = Ok (ArtifactAmountRecord obj) →
         playerartifactamount_table db !! obj.1 = Some obj.2.
Proof.
  destruct db as [g a s d].
  unfold has_modifier, try_except, bind, get_artifact_amount, get_spell_due,
    on_artifact_amounts, on_spell_dues. simpl.
  destruct (objects_get (artifact_named p m) a) as [obj|e] eqn:E1; simpl.
  - split; [done|]. intros obj' [= <-]. by apply objects_get_lookup in E1.
  - destruct e; simpl; try done.
    destruct (objects_get (due_named p m) d) as [obj|e] eqn:E2; simpl;
      [done|]. by destruct e.
Qed.

(** Invariants through [bind] and [try_except]: [Q] is what the first
    computation tells about the value it returns. *)
Lemma bind_inv {A B} (I : DB → Prop) (Q : A → Prop)
    (m : M A) (k : A → M B) db :
  I (m db).2 → (∀ a, (m db).1 = Ok a → Q a) →
  (∀ a db', Q a → I db' → I (k a db').2) →
  I (bind m k db).2.
Proof.
  unfold bind. destruct (m db) as [[a|e] db']; simpl; [|done].
  intros HI HQ Hk. apply Hk; [by apply HQ|done].
Qed.

Lemma try_except_inv {A} (I : DB → Prop) (m : M A) h db :
  I (m db).2 → (∀ e k db', h e = Some k → I db' → I (k db').2) →
  I (try_except m h db).2.
Proof.
  unfold try_except. destruct (m db) as [[a|e] db']; simpl; [done|].
  intros HI Hh. destruct (h e) as [k|] eqn:E; [|done]. by apply (Hh e).
Qed.

Lemma use_modifier_positive p m a db :
  amounts_positive db → amounts_positive (use_modifier p m a db).2.
Proof.
  intros Hinv. unfold use_modifier.
  apply (bind_inv _ (λ _, True)); [|done|].
  { by rewrite (proj1 (has_modifier_reads p m db)). }
  intros [obj| |] db' _ Hdb'; simpl; [|done..].
  rewrite bind_ret. case_decide; [done|].
  apply (bind_inv _ (λ _, True)); [|done|done].
  case_decide.
  - apply on_artifact_amounts_positive; [done|]. simpl.
    apply delete_obj_Forall, Hdb'.
  - apply on_artifact_amounts_positive; [done|].
    apply save_Forall; [apply Hdb'|]. simpl in *. lia.
Qed.

Section GodKeepsInvariant.
Variable get_artifact_for_modifier : string → nat → M (option Artifact.t).
Variable post_cast : Instance PlayerSpellDue.t → M unit.
Hypothesis god_artifact_positive : ∀ m p db,
  amounts_positive db → amounts_positive (get_artifact_for_modifier m p db).2.
Hypothesis god_post_cast_positive : ∀ psdue db,
  amounts_positive db → amounts_positive (post_cast psdue db).2.

Lemma give_modifier_positive p m a db :
  amounts_positive db →
  amounts_positive (give_modifier get_artifact_for_modifier p m a db).2.
Proof.
  intros Hinv. unfold give_modifier. case_decide; [done|].
  apply (bind_inv _ (λ res, ∀ obj, res = ArtifactAmountRecord obj →
                            1 ≤ PlayerArtifactAmount.amount obj.2)).
  { by rewrite (proj1 (has_modifier_reads p m db)). }
  { intros res Hres obj ->.
    apply (proj2 (has_modifier_reads p m db)) in Hres.
    by apply (proj1 Hinv) in Hres. }
  intros [obj| |] db' HQ Hdb'; simpl.
  - rewrite bind_ret. apply (bind_inv _ (λ _, True)); [|done|done].
    apply on_artifact_amounts_positive; [done|].
    apply save_Forall; [apply Hdb'|]. simpl.
    specialize (HQ obj eq_refl). lia.
  - done.
  - apply (bind_inv _ (λ _, True)); [by apply god_artifact_positive|done|].
    intros [artifact|] db'' _ Hdb''; [|done].
    apply (bind_inv _ (λ _, True)); [|done|done].
    apply on_artifact_amounts_positive; [done|].
    apply objects_create_Forall; [apply Hdb''|]. simpl. lia.
Qed.

Lemma add_spell_positive p s db :
  amounts_positive db → amounts_positive (add_spell p s db).2.
Proof.
  intros Hinv. unfold add_spell.
  apply (bind_inv _ (λ found, ∀ obj, found = Some obj →
                              1 ≤ PlayerSpellAmount.amount obj.2)).
  - apply try_except_inv.
    + unfold bind. by rewrite get_spell_amount_eq; destruct (objects_get _ _).
    + intros e k db' He Hdb'. destruct e; try done. injection He as <-.
      apply (bind_inv _ (λ _, True)); [|done|done].
      apply on_spell_amounts_positive; [done|].
      apply objects_create_Forall; [apply Hdb'|done].
  - intros found. unfold try_except, bind. rewrite get_spell_amount_eq.
    destruct (objects_get _ _) as [obj|e] eqn:E; simpl.
    + intros [= <-] obj' [= <-]. apply objects_get_lookup in E.
      by apply (proj2 Hinv) in E.
    + destruct e; simpl; try done.
      destruct (on_spell_amounts _ _) as [[?|?] ?]; simpl; [|done].
      by intros [= <-] obj.
  - intros [obj|] db' HQ Hdb'; [|done].
    apply on_spell_amounts_positive; [done|].
    apply save_Forall; [apply Hdb'|]. simpl.
    specialize (HQ obj eq_refl). lia.
Qed.

Lemma cast_spell_positive p s source due db :
  amounts_positive db →
  amounts_positive (cast_spell post_cast p s source due db).2.
Proof.
  intros Hinv. unfold cast_spell.
  apply (bind_inv _ (λ held, ∀ obj, held = Some obj →
                             0 < PlayerSpellAmount.amount obj.2)).
  - apply try_except_inv.
    + unfold bind. rewrite get_spell_amount_eq.
      destruct (objects_get _ _); simpl; [|done]. by case_decide.
    + intros e k db' He Hdb'. by destruct e; try done; injection He as <-.
  - intros held. unfold try_except, bind. rewrite get_spell_amount_eq.
    destruct (objects_get _ _) as [obj|e] eqn:E; simpl.
    + case_decide; simpl; [|by intros [= <-] ?].
      intros [= <-] obj' [= <-]. lia.
    + destruct e; simpl; try done; by intros [= <-] ?.
  - intros [obj|] db' HQ Hdb'; [|done]. specialize (HQ obj eq_refl).
    apply try_except_inv.
    + apply (bind_inv _ (λ _, True)); [by apply on_spell_dues_positive|done|].
      intros psdue db1 _ Hdb1.
      apply (bind_inv _ (λ _, True)); [by apply god_post_cast_positive|done|].
      intros _ db2 _ Hdb2.
      apply (bind_inv _ (λ _, True)); [|done|done].
      case_decide.
      * apply on_spell_amounts_positive; [done|].
        apply delete_obj_Forall, Hdb2.
      * apply on_spell_amounts_positive; [done|].
        apply save_Forall; [apply Hdb2|]. simpl in *. lia.
    + intros e k db1 [= <-] Hdb1. done.
Qed.

(** C6: the amount tables hold amounts of at least 1 in the empty
    database, every call of [give_modifier], [use_modifier], [add_spell]
    and [cast_spell] keeps it so (a row whose amount comes to 0 is
    deleted, not saved), and so it is in every database these calls
    reach; [God] is asked to keep the amounts positive too. *)
Theorem amounts_stay_positive :
  amounts_positive empty_db ∧
  (∀ db db', step get_artifact_for_modifier post_cast db db' →
             amounts_positive db → amounts_positive db') ∧
  (∀ db, rtc (step get_artifact_for_modifier post_cast) empty_db db →
         amounts_positive db).
Proof.
  assert (Hempty : amounts_positive empty_db)
    by (split; apply map_Forall_empty).
  assert (Hstep : ∀ db db', step get_artifact_for_modifier post_cast db db' →
                            amounts_positive db → amounts_positive db').
  { intros db db' [p m a ?|p m a ?|p s ?|p s source due ?] Hinv.
    - by apply give_modifier_positive.
    - by apply use_modifier_positive.
    - by apply add_spell_positive.
    - by apply cast_spell_positive. }
  split_and!; [done|done|].
  intros db Hreach. revert db Hreach.
  apply (rtc_ind_r (λ db, amounts_positive db) empty_db); [done|].
  intros db1 db2 _ H12 IH. by apply (Hstep db1).
Qed.
End GodKeepsInvariant.

(** ** [PlayerGroup.sisters] *)

Lemma exclude_id_lookup {R} (i j : nat) (tbl : Table R) r :
  exclude_id i tbl !! j = Some r ↔ tbl !! j = Some r ∧ j ≠ i.
Proof. unfold exclude_id. by rewrite map_lookup_filter_Some. Qed.

(** C2 as the code has it: on first access, the sisters of a group
    without a parent are all other groups of its class, with or without a
    parent of their own, each listed once; the list is kept in the
    object. *)
Theorem sisters_of_root self db :
  PlayerGroup.parent (PlayerGroupObject.fields self) = None →
  PlayerGroupObject._sisters self = [] →
  ∃ l,
    sisters self db =
      (Ok l, PlayerGroupObject.mk (PlayerGroupObject.id self)
               (PlayerGroupObject.fields self) l) ∧
    NoDup l ∧
    ∀ obj, obj ∈ l ↔
      playergroup_table db !! obj.1 = Some obj.2 ∧
      PlayerGroup.gclass obj.2 =
        PlayerGroup.gclass (PlayerGroupObject.fields self) ∧
      obj.1 ≠ PlayerGroupObject.id self.
Proof.
  intros Hroot Hcache. unfold sisters. rewrite Hcache, Hroot.
  eexists. split; [done|]. split; [apply NoDup_map_to_list|].
  intros [j r]. rewrite elem_of_map_to_list, exclude_id_lookup.
  rewrite objects_filter_lookup. simpl. tauto.
Qed.

(** C2 fails as stated: the sisters of the root group [series_a] include
    [group_a1], which has a parent. *)
Lemma sisters_include_subgroups :
  (sisters (loaded (1%nat, series_a)) db_groups).1 =
    Ok [(2%nat, series_b); (3%nat, group_a1)] ∧
  root_sisters (loaded (1%nat, series_a)) db_groups = [(2%nat, series_b)] ∧
  PlayerGroup.parent series_a = None ∧
  PlayerGroup.parent group_a1 ≠ None.
Proof. split_and!; [by vm_compute..|done]. Qed.

(** ** The theorems at sample data *)

Lemma db_shields_only_shield :
  the_only (artifact_named 1 "shield") (playerartifactamount_table db_shields)
    (1%nat, PlayerArtifactAmount.mk 1 shield 3).
Proof. apply (get_the_only _). by vm_compute. Defined.

Lemma db_shields_no_sword :
  no_row (artifact_named 1 "sword") (playerartifactamount_table db_shields).
Proof. apply (get_no_row _). by vm_compute. Defined.

Lemma db_shields_no_due m :
  no_row (due_named 1 m) (playerspelldue_table db_shields).
Proof. intros i r Hi. simpl in Hi. by rewrite lookup_empty in Hi. Defined.

Lemma db_frozen_no_artifact :
  no_row (artifact_named 1 "freeze") (playerartifactamount_table db_frozen).
Proof. intros i r Hi. simpl in Hi. by rewrite lookup_empty in Hi. Defined.

Lemma db_frozen_only_due :
  the_only (due_named 1 "freeze") (playerspelldue_table db_frozen)
    (1%nat, PlayerSpellDue.mk 1 freeze 2 100).
Proof. apply (get_the_only _). by vm_compute. Defined.

Lemma has_modifier_prefers_artifact_witness :
  has_modifier 1 "shield" db_shields =
    (Ok (ArtifactAmountRecord (1%nat, PlayerArtifactAmount.mk 1 shield 3)),
     db_shields) ∧
  has_modifier 1 "freeze" db_frozen =
    (Ok (SpellDueRecord (1%nat, PlayerSpellDue.mk 1 freeze 2 100)),
     db_frozen) ∧
  has_modifier 1 "sword" db_shields = (Ok NotFound, db_shields).
Proof.
  split_and!.
  - apply (proj1 (has_modifier_prefers_artifact 1 "shield" db_shields)).
    apply db_shields_only_shield.
  - apply (proj1 (proj2 (has_modifier_prefers_artifact 1 "freeze" db_frozen))).
    + apply db_frozen_no_artifact.
    + apply db_frozen_only_due.
  - apply (proj2 (proj2 (has_modifier_prefers_artifact 1 "sword" db_shields))).
    + apply db_shields_no_sword.
    + apply db_shields_no_due.
Defined.

Lemma give_modifier_nonpositive_noop_witness :
  0 ≤ 0 ∧
  give_modifier god_knows_shield 1 "shield" 0 db_shields =
    (Ok None, db_shields).
Proof.
  split; [lia|]. apply (give_modifier_nonpositive_noop _ 1 "shield" 0). lia.
Defined.

Lemma modifier_on_spell_due_attribute_error_witness :
  (0 < 1 →
   give_modifier god_knows_shield 1 "freeze" 1 db_frozen =
     (Raise AttributeError, db_frozen)) ∧
  use_modifier 1 "freeze" 1 db_frozen = (Raise AttributeError, db_frozen).
Proof.
  apply (modifier_on_spell_due_attribute_error god_knows_shield 1 "freeze" 1
           db_frozen (1%nat, PlayerSpellDue.mk 1 freeze 2 100)).
  - apply db_frozen_no_artifact.
  - apply db_frozen_only_due.
Defined.

Lemma use_modifier_no_record_attribute_error_witness :
  use_modifier 1 "sword" 1 db_shields = (Raise AttributeError, db_shields).
Proof.
  apply use_modifier_no_record_attribute_error.
  - apply db_shields_no_sword.
  - apply db_shields_no_due.
Defined.

Lemma db_shields_no_spell_of_player_2 :
  no_row (spell_of 2 freeze) (playerspellamount_table db_shields).
Proof. apply (get_no_row _). by vm_compute. Defined.

Lemma cast_spell_without_spell_witness :
  cast_spell god_idle 1 freeze 2 50 db_shields = (Ok false, db_shields).
Proof.
  apply cast_spell_without_spell. left. apply db_shields_no_spell_of_player_2.
Defined.

Lemma db_frozen_source_has_freeze :
  the_only (spell_of 2 freeze) (playerspellamount_table db_frozen)
    (1%nat, PlayerSpellAmount.mk 2 freeze 1).
Proof. apply (get_the_only _). by vm_compute. Defined.

Lemma cast_spell_already_active_witness :
  cast_spell god_idle 1 freeze 2 200 db_frozen = (Ok false, db_frozen).
Proof.
  apply (cast_spell_already_active god_idle 1 freeze 2 200 db_frozen
           (1%nat, PlayerSpellAmount.mk 2 freeze 1)
           1%nat (PlayerSpellDue.mk 1 freeze 2 100)).
  - apply db_frozen_source_has_freeze.
  - simpl. lia.
  - by vm_compute.
  - by split.
Defined.

Lemma db_shields_player_1_has_freeze :
  the_only (spell_of 1 freeze) (playerspellamount_table db_shields)
    (1%nat, PlayerSpellAmount.mk 1 freeze 2).
Proof. apply (get_the_only _). by vm_compute. Defined.

Lemma cast_spell_success_witness :
  ∃ db',
    cast_spell god_idle 3 freeze 1 50 db_shields = (Ok true, db') ∧
    playerspelldue_table db' =
      <[next_id (playerspelldue_table db_shields) :=
          PlayerSpellDue.mk 3 freeze 1 50]> ∅ ∧
    playerspellamount_table db' =
      <[1%nat := PlayerSpellAmount.mk 1 freeze 1]>
        (playerspellamount_table db_shields).
Proof.
  destruct (cast_spell_success god_idle 3 freeze 1 50 db_shields
              (1%nat, PlayerSpellAmount.mk 1 freeze 2)
              (mkDB ∅ (playerartifactamount_table db_shields)
                 (playerspellamount_table db_shields)
                 (<[next_id (playerspelldue_table db_shields) :=
                      PlayerSpellDue.mk 3 freeze 1 50]> ∅)))
    as (db' & Hcast & _ & Hdue & Hamt & _).
  - apply db_shields_player_1_has_freeze.
  - simpl. lia.
  - intros i r Hi. simpl in Hi. by rewrite lookup_empty in Hi.
  - reflexivity.
  - reflexivity.
  - reflexivity.
  - exists db'. split_and!; [done|done|]. rewrite Hamt. reflexivity.
Defined.

Lemma db_shields_positive : amounts_positive db_shields.
Proof. split; apply map_Forall_singleton; simpl; lia. Defined.

Lemma amounts_stay_positive_witness :
  amounts_positive (use_modifier 1 "shield" 3 db_shields).2.
Proof.
  apply (proj1 (proj2 (amounts_stay_positive god_knows_shield god_idle
                         (λ _ _ _ H, H) (λ _ _ H, H))) db_shields).
  - apply step_use_modifier.
  - apply db_shields_positive.
Defined.

Lemma sisters_of_root_witness :
  ∃ l,
    sisters (loaded (1%nat, series_a)) db_groups =
      (Ok l, PlayerGroupObject.mk 1 series_a l) ∧
    NoDup l ∧
    ∀ obj, obj ∈ l ↔
      playergroup_table db_groups !! obj.1 = Some obj.2 ∧
      PlayerGroup.gclass obj.2 = 2 ∧ obj.1 ≠ 1%nat.
Proof.
  apply (sisters_of_root (loaded (1%nat, series_a)) db_groups);
    reflexivity.
Defined.

(** * Further properties *)

(** ** More on [PlayerGroup.sisters] *)

(** What a freshly loaded group gets as its sisters. *)
Lemma sisters_loaded i g db l :
  (sisters (loaded (i, g)) db).1 = Ok l →
  ∀ obj, obj ∈ l ↔
    playergroup_table db !! obj.1 = Some obj.2 ∧ obj.1 ≠ i ∧
    match PlayerGroup.parent g with
    | Some pid => PlayerGroup.parent obj.2 = Some pid
    | None => PlayerGroup.gclass obj.2 = PlayerGroup.gclass g
    end.
Proof.
  unfold sisters, loaded. simpl. destruct (PlayerGroup.parent g) as [pid|].
  - destruct (playergroup_table db !! pid); simpl; [|done].
    intros [= <-] [j r]. rewrite elem_of_map_to_list, exclude_id_lookup.
    unfold children. rewrite objects_filter_lookup. simpl. tauto.
  - simpl. intros [= <-] [j r].
    rewrite elem_of_map_to_list, exclude_id_lookup, objects_filter_lookup.
    simpl. tauto.
Qed.

(** X1: on first access, the sisters of a group whose parent exists are
    the other groups with that parent, each listed once, and never the
    group itself; the list is kept in the object. *)
Theorem sisters_of_child self db pid parent_row :
  PlayerGroup.parent (PlayerGroupObject.fields self) = Some pid →
  PlayerGroupObject._sisters self = [] →
  playergroup_table db !! pid = Some parent_row →
  ∃ l,
    sisters self db =
      (Ok l, PlayerGroupObject.mk (PlayerGroupObject.id self)
               (PlayerGroupObject.fields self) l) ∧
    NoDup l ∧
    ∀ obj, obj ∈ l ↔
      playergroup_table db !! obj.1 = Some obj.2 ∧
      PlayerGroup.parent obj.2 = Some pid ∧
      obj.1 ≠ PlayerGroupObject.id self.
Proof.
  intros Hparent Hcache Hpid. unfold sisters.
  rewrite Hcache, Hparent, Hpid.
  eexists. split; [done|]. split; [apply NoDup_map_to_list|].
  intros [j r]. rewrite elem_of_map_to_list, exclude_id_lookup.
  unfold children. rewrite objects_filter_lookup. simpl. tauto.
Qed.

(** X2: a list of sisters that is not empty is computed once: the object
    answers every later access with it, whatever the database has become.
    An empty list is not kept: the next access queries again. *)
Theorem sisters_cached_unless_empty self db l self' :
  sisters self db = (Ok l, self') →
  ∀ db', sisters self' db' =
         match l with
         | [] => sisters self db'
         | _ :: _ => (Ok l, self')
         end.
Proof.
  destruct self as [i g cache]. unfold sisters at 1. simpl.
  destruct cache as [|c cache].
  - destruct (PlayerGroup.parent g) as [pid|].
    + destruct (playergroup_table db !! pid); [|done].
      intros [= <- <-] db'. by destruct (map_to_list _).
    + intros [= <- <-] db'. by destruct (map_to_list _).
  - by intros [= <- <-] db'.
Qed.

(** X3: between two groups with the same parent field (two root groups,
    or two groups under one parent), being a sister is mutual. *)
Theorem sisters_symmetric db i j g h lg lh :
  playergroup_table db !! i = Some g →
  playergroup_table db !! j = Some h →
  PlayerGroup.parent g = PlayerGroup.parent h →
  (sisters (loaded (i, g)) db).1 = Ok lg →
  (sisters (loaded (j, h)) db).1 = Ok lh →
  (j, h) ∈ lg ↔ (i, g) ∈ lh.
Proof.
  intros Hi Hj Hparent Hg Hh.
  rewrite (sisters_loaded _ _ _ _ Hg (j, h)), (sisters_loaded _ _ _ _ Hh (i, g)).
  simpl. rewrite <- Hparent.
  destruct (PlayerGroup.parent g) as [pid|] eqn:E; simpl.
  - split; intros (_ & Hne & _); split_and!; done.
  - split; intros (_ & Hne & Hc); split_and!; done.
Qed.

(** ** More on the artifact accounts *)

Lemma objects_get_Multiple {R} (P : R → Prop) `{!∀ r, Decision (P r)}
    (tbl : Table R) i j r r' :
  i ≠ j → tbl !! i = Some r → P r → tbl !! j = Some r' → P r' →
  objects_get P tbl = Raise MultipleObjectsReturned.
Proof.
  intros Hne Hi HPi Hj HPj.
  destruct (objects_get P tbl) as [obj|e] eqn:E.
  - apply (get_the_only _) in E as (_ & _ & Hu).
    destruct Hne. by rewrite (Hu _ _ Hi HPi), (Hu _ _ Hj HPj).
  - unfold objects_get in E.
    destruct (map_to_list (objects_filter P tbl)) as [|x [|y l]] eqn:El;
      [|done|by injection E as <-].
    apply map_to_list_empty_iff in El.
    by destruct (proj1 (objects_filter_empty _ _) El _ _ Hi).
Qed.

Lemma objects_get_Raise {R} (P : R → Prop) `{!∀ r, Decision (P r)}
    (tbl : Table R) e :
  objects_get P tbl = Raise e →
  e = DoesNotExist ∨
  ∃ i j r r', i ≠ j ∧ tbl !! i = Some r ∧ P r ∧ tbl !! j = Some r' ∧ P r'.
Proof.
  unfold objects_get.
  destruct (map_to_list (objects_filter P tbl))
    as [|[i1 r1] [|[i2 r2] l]] eqn:El; [intros [= <-]; by left|done|].
  intros _. right.
  assert (H1 : (i1, r1) ∈ map_to_list (objects_filter P tbl))
    by (rewrite El; left).
  assert (H2 : (i2, r2) ∈ map_to_list (objects_filter P tbl))
    by (rewrite El; right; left).
  apply elem_of_map_to_list, objects_filter_lookup in H1 as [H1 P1].
  apply elem_of_map_to_list, objects_filter_lookup in H2 as [H2 P2].
  pose proof (NoDup_fst_map_to_list (objects_filter P tbl)) as Hnd.
  rewrite El in Hnd. simpl in Hnd. apply NoDup_cons in Hnd as [Hnd _].
  exists i1, i2, r1, r2. split_and!; try done.
  intros ->. apply Hnd. left.
Qed.

(** X4: [use_modifier] of an amount the record covers returns the record
    with the amount taken off; the row is deleted when nothing is left and
    holds the difference otherwise; no other row and no other table
    changes. *)
Theorem use_modifier_decrements p m a db obj :
  the_only (artifact_named p m) (playerartifactamount_table db) obj →
  unique_together same_artifact (playerartifactamount_table db) →
  a ≤ PlayerArtifactAmount.amount obj.2 →
  ∃ db',
    use_modifier p m a db =
      (Ok (set_amount obj (PlayerArtifactAmount.amount obj.2 - a)), db') ∧
    (a = PlayerArtifactAmount.amount obj.2 →
     playerartifactamount_table db' !! obj.1 = None ∧
     no_row (artifact_named p m) (playerartifactamount_table db')) ∧
    (a ≠ PlayerArtifactAmount.amount obj.2 →
     the_only (artifact_named p m) (playerartifactamount_table db')
       (set_amount obj (PlayerArtifactAmount.amount obj.2 - a))) ∧
    (∀ j, j ≠ obj.1 →
          playerartifactamount_table db' !! j =
          playerartifactamount_table db !! j) ∧
    playergroup_table db' = playergroup_table db ∧
    playerspellamount_table db' = playerspellamount_table db ∧
    playerspelldue_table db' = playerspelldue_table db.
Proof.
  intros Ho Hu Ha. rewrite (use_modifier_sufficient _ _ _ _ _ Ho Hu Ha).
  eexists. split; [done|]. simpl.
  pose proof Ho as (_ & HP & _).
  split_and!; try done.
  - intros ->. rewrite decide_True by lia. split.
    + apply lookup_delete_eq.
    + by apply no_row_delete.
  - intros Hne. rewrite decide_False by lia.
    apply (the_only_insert _ _ obj _ Ho). by destruct HP.
  - intros j Hj. case_decide.
    + by rewrite lookup_delete_ne.
    + by rewrite lookup_insert_ne.
Qed.

(** X5: [use_modifier] does not ask for a positive amount: against a
    stored amount of at least 1, a negative one is never insufficient and
    raises the stored amount. *)
Theorem use_modifier_negative_adds p m a db obj :
  the_only (artifact_named p m) (playerartifactamount_table db) obj →
  unique_together same_artifact (playerartifactamount_table db) →
  1 ≤ PlayerArtifactAmount.amount obj.2 →
  a < 0 →
  ∃ obj' db',
    use_modifier p m a db = (Ok obj', db') ∧
    playerartifactamount_table db' !! obj.1 = Some obj'.2 ∧
    PlayerArtifactAmount.amount obj'.2 =
      PlayerArtifactAmount.amount obj.2 + Z.abs a ∧
    PlayerArtifactAmount.amount obj.2 < PlayerArtifactAmount.amount obj'.2.
Proof.
  intros Ho Hu Hn Ha.
  rewrite (use_modifier_sufficient _ _ _ _ _ Ho Hu) by lia.
  eexists _, _. split; [done|]. simpl. rewrite decide_False by lia.
  rewrite lookup_insert_eq. split_and!; [done|lia|lia].
Qed.

(** X6: [give_modifier] of a positive amount to a player who has the
    artifact adds the amount to the row; no other row and no other table
    changes. *)
Theorem give_modifier_adds get_artifact_for_modifier p m a db obj :
  the_only (artifact_named p m) (playerartifactamount_table db) obj →
  unique_together same_artifact (playerartifactamount_table db) →
  0 < a →
  ∃ db',
    give_modifier get_artifact_for_modifier p m a db =
      (Ok (Some (set_amount obj (PlayerArtifactAmount.amount obj.2 + a))),
       db') ∧
    the_only (artifact_named p m) (playerartifactamount_table db')
      (set_amount obj (PlayerArtifactAmount.amount obj.2 + a)) ∧
    (∀ j, j ≠ obj.1 →
          playerartifactamount_table db' !! j =
          playerartifactamount_table db !! j) ∧
    playergroup_table db' = playergroup_table db ∧
    playerspellamount_table db' = playerspellamount_table db ∧
    playerspelldue_table db' = playerspelldue_table db.
Proof.
  intros Ho Hu Ha.
  rewrite (give_modifier_existing _ _ _ _ _ _ Ho Hu Ha).
  eexists. split; [done|]. simpl. pose proof Ho as (_ & HP & _).
  split_and!; try done.
  - apply (the_only_insert _ _ obj _ Ho). by destruct HP.
  - intros j Hj. by rewrite lookup_insert_ne.
Qed.

(** X7: the first grant of a modifier, to a player for whom the name
    matches nothing, makes one new row with the artifact [God] names and
    the amount given, under a key that was free; the rows there were stay
    as they are. *)
Theorem give_modifier_creates get_artifact_for_modifier p m a db art :
  no_row (artifact_named p m) (playerartifactamount_table db) →
  no_row (due_named p m) (playerspelldue_table db) →
  get_artifact_for_modifier m p db = (Ok (Some art), db) →
  Artifact.name art = m →
  no_row (same_artifact (PlayerArtifactAmount.mk p art a))
    (playerartifactamount_table db) →
  0 < a →
  ∃ i db',
    give_modifier get_artifact_for_modifier p m a db =
      (Ok (Some (i, PlayerArtifactAmount.mk p art a)), db') ∧
    playerartifactamount_table db !! i = None ∧
    the_only (artifact_named p m) (playerartifactamount_table db')
      (i, PlayerArtifactAmount.mk p art a) ∧
    (∀ j r, playerartifactamount_table db !! j = Some r →
            playerartifactamount_table db' !! j = Some r) ∧
    playerspelldue_table db' = playerspelldue_table db.
Proof.
  intros H1 H2 Hg Hname Hn Ha.
  rewrite (give_modifier_new _ _ _ _ _ _ H1 H2 Hg Hn Ha).
  eexists _, _. split; [done|]. simpl.
  split_and!; [apply next_id_fresh|by apply the_only_create| |done].
  intros j r Hj. rewrite lookup_insert_ne; [done|].
  intros <-. by rewrite next_id_fresh in Hj.
Qed.

(** X11: using less than the stored amount and granting it back gives the
    very database back. *)
Theorem use_then_give_restores get_artifact_for_modifier p m a db obj :
  the_only (artifact_named p m) (playerartifactamount_table db) obj →
  unique_together same_artifact (playerartifactamount_table db) →
  0 < a → a < PlayerArtifactAmount.amount obj.2 →
  use_then_give get_artifact_for_modifier p m a db = (Ok (Some obj), db).
Proof.
  intros Ho Hu Ha Hlt. destruct obj as [i r].
  pose proof Ho as (Hi & HP & _). simpl in *.
  unfold use_then_give.
  erewrite bind_Ok; [|by apply (use_modifier_sufficient _ _ _ _ _ Ho Hu); simpl; lia].
  simpl. rewrite decide_False by lia.
  set (r1 := PlayerArtifactAmount.mk _ _ _). set (db1 := mkDB _ _ _ _).
  assert (Ho1 : the_only (artifact_named p m)
                  (playerartifactamount_table db1) (i, r1)).
  { apply (the_only_insert _ _ (i, r) r1 Ho). by destruct HP. }
  rewrite (give_modifier_existing _ _ _ _ _ _ Ho1).
  - simpl. rewrite insert_insert_eq.
    replace (PlayerArtifactAmount.amount r - a + a)
      with (PlayerArtifactAmount.amount r) by lia.
    destruct r as [rp ra rn]. simpl.
    rewrite insert_id by done. by destruct db.
  - by apply (unique_together_insert _ _ _ r).
  - done.
Qed.

(** X12: only [DoesNotExist] is caught: when two rows of the player carry
    artifacts of the given name, [has_modifier], [use_modifier] and
    [give_modifier] of a positive amount raise [MultipleObjectsReturned]
    and write nothing. *)
Theorem modifier_name_ambiguous get_artifact_for_modifier p m a db i j r r' :
  i ≠ j →
  playerartifactamount_table db !! i = Some r → artifact_named p m r →
  playerartifactamount_table db !! j = Some r' → artifact_named p m r' →
  has_modifier p m db = (Raise MultipleObjectsReturned, db) ∧
  use_modifier p m a db = (Raise MultipleObjectsReturned, db) ∧
  (0 < a →
   give_modifier get_artifact_for_modifier p m a db =
     (Raise MultipleObjectsReturned, db)).
Proof.
  intros Hne Hi HPi Hj HPj.
  assert (Hm : has_modifier p m db = (Raise MultipleObjectsReturned, db)).
  { unfold has_modifier, try_except, bind.
    rewrite get_artifact_amount_eq.
    by rewrite (objects_get_Multiple _ _ i j r r'). }
  split_and!; [done| |].
  - unfold use_modifier. by rewrite (bind_Raise _ _ _ _ _ Hm).
  - intros Ha. unfold give_modifier. rewrite decide_False by lia.
    by rewrite (bind_Raise _ _ _ _ _ Hm).
Qed.

(** ** More on the spell accounts *)

Lemma save_the_only (tbl : Table PlayerSpellAmount.t) p s obj a :
  the_only (spell_of p s) tbl obj →
  save same_spell (set_spell_amount obj a) tbl =
  (Ok tt, <[obj.1 := (set_spell_amount obj a).2]> tbl).
Proof.
  intros (Hi & HP & Hu). unfold save. rewrite decide_False; [done|].
  intros (k & x & Hk & Hne & Hs). simpl in *. apply Hne, (Hu k x Hk).
  destruct HP as [HP1 HP2], Hs as [Hs1 Hs2]. simpl in *. split; congruence.
Qed.

Lemma add_spell_new p s db :
  no_row (spell_of p s) (playerspellamount_table db) →
  add_spell p s db =
  (Ok tt,
   mkDB (playergroup_table db) (playerartifactamount_table db)
        (<[next_id (playerspellamount_table db) :=
             PlayerSpellAmount.mk p s 1]> (playerspellamount_table db))
        (playerspelldue_table db)).
Proof.
  intros Hno. unfold add_spell, try_except, bind.
  rewrite get_spell_amount_eq, (no_row_get _ _ Hno).
  rewrite on_spell_amounts_eq. unfold objects_create.
  rewrite decide_False; [done|].
  intros (k & x & Hk & Hs). destruct (Hno _ _ Hk).
  destruct Hs as [Hs1 Hs2]. by split.
Qed.

Lemma add_spell_existing p s db obj :
  the_only (spell_of p s) (playerspellamount_table db) obj →
  add_spell p s db =
  (Ok tt,
   mkDB (playergroup_table db) (playerartifactamount_table db)
        (<[obj.1 :=
             (set_spell_amount obj (PlayerSpellAmount.amount obj.2 + 1)).2]>
           (playerspellamount_table db))
        (playerspelldue_table db)).
Proof.
  intros Ho. unfold add_spell, try_except, bind.
  rewrite get_spell_amount_eq, (the_only_get _ _ _ Ho). simpl.
  rewrite on_spell_amounts_eq. by rewrite (save_the_only _ p s).
Qed.

(** X13: the first [add_spell] of a spell makes one new row, with amount
    1 and a key that was free; the rows there were stay as they are, and
    so do the other tables. *)
Theorem add_spell_first p s db :
  no_row (spell_of p s) (playerspellamount_table db) →
  ∃ i db',
    add_spell p s db = (Ok tt, db') ∧
    playerspellamount_table db !! i = None ∧
    the_only (spell_of p s) (playerspellamount_table db')
      (i, PlayerSpellAmount.mk p s 1) ∧
    (∀ j r, playerspellamount_table db !! j = Some r →
            playerspellamount_table db' !! j = Some r) ∧
    playerartifactamount_table db' = playerartifactamount_table db ∧
    playerspelldue_table db' = playerspelldue_table db.
Proof.
  intros Hno. rewrite (add_spell_new _ _ _ Hno).
  eexists _, _. split; [done|]. simpl.
  split_and!; [apply next_id_fresh| | |done|done].
  - by apply the_only_create.
  - intros j r Hj. rewrite lookup_insert_ne; [done|].
    intros <-. by rewrite next_id_fresh in Hj.
Qed.

(** X14: [add_spell] of a spell the player has adds 1 to the row; no
    other row and no other table changes. *)
Theorem add_spell_again p s db obj :
  the_only (spell_of p s) (playerspellamount_table db) obj →
  ∃ db',
    add_spell p s db = (Ok tt, db') ∧
    the_only (spell_of p s) (playerspellamount_table db')
      (set_spell_amount obj (PlayerSpellAmount.amount obj.2 + 1)) ∧
    (∀ j, j ≠ obj.1 →
          playerspellamount_table db' !! j =
          playerspellamount_table db !! j) ∧
    playerartifactamount_table db' = playerartifactamount_table db ∧
    playerspelldue_table db' = playerspelldue_table db.
Proof.
  intros Ho. rewrite (add_spell_existing _ _ _ _ Ho).
  eexists. split; [done|]. simpl. pose proof Ho as (_ & HP & _).
  split_and!; [|by intros j Hj; rewrite lookup_insert_ne|done|done].
  apply (the_only_insert _ _ obj _ Ho). by destruct HP.
Qed.

Section MoreCasting.
Variable post_cast : Instance PlayerSpellDue.t → M unit.

(** The database after the new spell-due row is made. *)
Lemma cast_spell_create self spell source due db :
  no_row (due_of self spell) (playerspelldue_table db) →
  on_spell_dues
    (objects_create same_due (PlayerSpellDue.mk self spell source due)) db =
  (Ok (next_id (playerspelldue_table db),
       PlayerSpellDue.mk self spell source due),
   mkDB (playergroup_table db) (playerartifactamount_table db)
        (playerspellamount_table db)
        (<[next_id (playerspelldue_table db) :=
             PlayerSpellDue.mk self spell source due]>
           (playerspelldue_table db))).
Proof.
  intros Hfree. rewrite on_spell_dues_eq. unfold objects_create.
  rewrite decide_False; [done|].
  intros (k & x & Hk & Hs). destruct (Hfree _ _ Hk).
  destruct Hs as [Hs1 Hs2]. by split.
Qed.

(** The whole run of a cast whose post-cast action writes nothing. *)
Lemma cast_spell_run self spell source due db obj :
  the_only (spell_of source spell) (playerspellamount_table db) obj →
  1 ≤ PlayerSpellAmount.amount obj.2 →
  no_row (due_of self spell) (playerspelldue_table db) →
  (∀ d, post_cast (next_id (playerspelldue_table db),
                   PlayerSpellDue.mk self spell source due) d = (Ok tt, d)) →
  cast_spell post_cast self spell source due db =
  (Ok true,
   mkDB (playergroup_table db) (playerartifactamount_table db)
        (if decide (PlayerSpellAmount.amount obj.2 - 1 = 0)
         then delete obj.1 (playerspellamount_table db)
         else <[obj.1 :=
                  (set_spell_amount obj (PlayerSpellAmount.amount obj.2 - 1)).2]>
                (playerspellamount_table db))
        (<[next_id (playerspelldue_table db) :=
             PlayerSpellDue.mk self spell source due]>
           (playerspelldue_table db))).
Proof.
  intros Ho Hn Hfree Hidle.
  rewrite (cast_spell_held _ _ _ _ _ _ _ Ho Hn). unfold try_except.
  rewrite (bind_Ok _ _ _ _ _ (cast_spell_create _ _ _ _ _ Hfree)).
  rewrite (bind_Ok _ _ _ _ _ (Hidle _)).
  destruct (decide (PlayerSpellAmount.amount obj.2 - 1 = 0)) as [E|E].
  - erewrite bind_Ok; [done|]. simpl. rewrite decide_True by done.
    by rewrite on_spell_amounts_eq.
  - erewrite bind_Ok; [done|]. simpl. rewrite decide_False by done.
    rewrite on_spell_amounts_eq. simpl.
    by rewrite (save_the_only _ source spell).
Qed.

Lemma cast_spell_refused_no_row self spell source due db :
  no_row (spell_of source spell) (playerspellamount_table db) →
  cast_spell post_cast self spell source due db = (Ok false, db).
Proof.
  intros Hno. unfold cast_spell, try_except, bind.
  by rewrite get_spell_amount_eq, (no_row_get _ _ Hno).
Qed.

Lemma cast_spell_refused_active self spell source due db obj j r :
  the_only (spell_of source spell) (playerspellamount_table db) obj →
  1 ≤ PlayerSpellAmount.amount obj.2 →
  playerspelldue_table db !! j = Some r → due_of self spell r →
  cast_spell post_cast self spell source due db = (Ok false, db).
Proof.
  intros Ho Hn Hj Hr. rewrite (cast_spell_held _ _ _ _ _ _ _ Ho Hn).
  unfold try_except, bind. rewrite on_spell_dues_eq. unfold objects_create.
  rewrite decide_True; [by destruct db|].
  exists j, r. split; [done|]. destruct Hr as [Hr1 Hr2]. by split.
Qed.
End MoreCasting.

Section CastingScenarios.
Variable post_cast : Instance PlayerSpellDue.t → M unit.

(** X15: [cast_spell] does not roll back: when the post-cast action of
    [God] raises, having written nothing itself, [cast_spell] returns
    [False] although the new spell-due row stays in the table; the
    source's amount is not taken. *)
Theorem cast_spell_no_rollback self spell source due db obj e :
  let psdue :=
    (next_id (playerspelldue_table db),
     PlayerSpellDue.mk self spell source due) in
  let db1 :=
    mkDB (playergroup_table db) (playerartifactamount_table db)
         (playerspellamount_table db)
         (<[psdue.1 := psdue.2]> (playerspelldue_table db)) in
  the_only (spell_of source spell) (playerspellamount_table db) obj →
  1 ≤ PlayerSpellAmount.amount obj.2 →
  no_row (due_of self spell) (playerspelldue_table db) →
  post_cast psdue db1 = (Raise e, db1) →
  cast_spell post_cast self spell source due db = (Ok false, db1) ∧
  playerspelldue_table db !! psdue.1 = None ∧
  playerspelldue_table db1 !! psdue.1 = Some psdue.2 ∧
  playerspellamount_table db1 = playerspellamount_table db.
Proof.
  intros psdue db1 Ho Hn Hfree Hpost.
  rewrite (cast_spell_held _ _ _ _ _ _ _ Ho Hn). unfold try_except.
  rewrite (bind_Ok _ _ _ _ _ (cast_spell_create _ _ _ _ _ Hfree)).
  rewrite (bind_Raise _ _ _ _ _ Hpost).
  split_and!; [done|apply next_id_fresh|apply lookup_insert_eq|done].
Qed.

(** X16: a spell does not stack: after a cast that went through, a second
    cast of the same spell on the same target by the same source returns
    [False] and leaves the database as the first cast left it, whether the
    source has the spell left or not. *)
Theorem cast_twice_refused self spell source due due' db obj :
  the_only (spell_of source spell) (playerspellamount_table db) obj →
  1 ≤ PlayerSpellAmount.amount obj.2 →
  no_row (due_of self spell) (playerspelldue_table db) →
  (∀ d, post_cast (next_id (playerspelldue_table db),
                   PlayerSpellDue.mk self spell source due) d = (Ok tt, d)) →
  (cast_spell post_cast self spell source due db).1 = Ok true ∧
  cast_twice post_cast self spell source due due' db =
    (Ok false, (cast_spell post_cast self spell source due db).2).
Proof.
  intros Ho Hn Hfree Hidle. unfold cast_twice.
  pose proof (cast_spell_run _ _ _ _ _ _ _ Ho Hn Hfree Hidle) as Hrun.
  rewrite (bind_Ok _ _ _ _ _ Hrun), Hrun. split; [done|]. simpl.
  set (db' := mkDB _ _ _ _).
  destruct (decide (PlayerSpellAmount.amount obj.2 - 1 = 0)) as [E|E].
  - apply cast_spell_refused_no_row. by apply no_row_delete.
  - pose proof Ho as (_ & HP & _).
    apply (cast_spell_refused_active _ _ _ _ _ _
             (set_spell_amount obj (PlayerSpellAmount.amount obj.2 - 1))
             (next_id (playerspelldue_table db))
             (PlayerSpellDue.mk self spell source due)).
    + apply (the_only_insert _ _ obj _ Ho). by destruct HP.
    + simpl. lia.
    + apply lookup_insert_eq.
    + by split.
Qed.

(** X17: after a cast that went through, [has_modifier] of the target for
    the spell's name returns the new spell-due record, when the target had
    neither an artifact nor an active spell of that name. *)
Theorem has_modifier_after_cast self spell source due db obj :
  the_only (spell_of source spell) (playerspellamount_table db) obj →
  1 ≤ PlayerSpellAmount.amount obj.2 →
  no_row (due_of self spell) (playerspelldue_table db) →
  (∀ d, post_cast (next_id (playerspelldue_table db),
                   PlayerSpellDue.mk self spell source due) d = (Ok tt, d)) →
  no_row (artifact_named self (Spell.name spell))
    (playerartifactamount_table db) →
  no_row (due_named self (Spell.name spell)) (playerspelldue_table db) →
  ∃ db',
    cast_spell post_cast self spell source due db = (Ok true, db') ∧
    has_modifier self (Spell.name spell) db' =
      (Ok (SpellDueRecord (next_id (playerspelldue_table db),
                           PlayerSpellDue.mk self spell source due)), db').
Proof.
  intros Ho Hn Hfree Hidle Hart Hdue.
  rewrite (cast_spell_run _ _ _ _ _ _ _ Ho Hn Hfree Hidle).
  eexists. split; [done|]. apply has_modifier_due; simpl; [done|].
  by apply the_only_create.
Qed.

(** X18: a cast that went through adds the new record to the target's
    [spells] and leaves the [spells] of every other player as they were. *)
Theorem spells_after_cast self spell source due db obj :
  the_only (spell_of source spell) (playerspellamount_table db) obj →
  1 ≤ PlayerSpellAmount.amount obj.2 →
  no_row (due_of self spell) (playerspelldue_table db) →
  (∀ d, post_cast (next_id (playerspelldue_table db),
                   PlayerSpellDue.mk self spell source due) d = (Ok tt, d)) →
  ∃ db',
    cast_spell post_cast self spell source due db = (Ok true, db') ∧
    spells self db' =
      <[next_id (playerspelldue_table db) :=
          PlayerSpellDue.mk self spell source due]> (spells self db) ∧
    spells self db !! next_id (playerspelldue_table db) = None ∧
    ∀ q, q ≠ self → spells q db' = spells q db.
Proof.
  intros Ho Hn Hfree Hidle.
  rewrite (cast_spell_run _ _ _ _ _ _ _ Ho Hn Hfree Hidle).
  eexists. split; [done|]. unfold spells, objects_filter. simpl.
  split_and!.
  - by rewrite map_filter_insert_True.
  - apply map_lookup_filter_None. left. apply next_id_fresh.
  - intros q Hq. rewrite map_filter_insert_False by (simpl; congruence).
    by rewrite delete_id by apply next_id_fresh.
Qed.

(** X19: when the source collects a spell with [add_spell] and casts it,
    its own amounts end as they began: the only change to the database is
    the target's new spell-due row. *)
Theorem add_then_cast_restores self spell source due db :
  unique_together same_spell (playerspellamount_table db) →
  map_Forall (λ _ r, 1 ≤ PlayerSpellAmount.amount r)
    (playerspellamount_table db) →
  no_row (due_of self spell) (playerspelldue_table db) →
  (∀ d, post_cast (next_id (playerspelldue_table db),
                   PlayerSpellDue.mk self spell source due) d = (Ok tt, d)) →
  add_then_cast post_cast self spell source due db =
  (Ok true,
   mkDB (playergroup_table db) (playerartifactamount_table db)
        (playerspellamount_table db)
        (<[next_id (playerspelldue_table db) :=
             PlayerSpellDue.mk self spell source due]>
           (playerspelldue_table db))).
Proof.
  intros Hu Hpos Hfree Hidle. unfold add_then_cast.
  destruct (objects_get (spell_of source spell) (playerspellamount_table db))
    as [[i r]|e] eqn:E.
  - apply (get_the_only _) in E. pose proof E as (Hi & HP & _). simpl in *.
    rewrite (bind_Ok _ _ _ _ _ (add_spell_existing _ _ _ _ E)). simpl.
    set (r1 := PlayerSpellAmount.mk _ _ _).
    assert (Ho1 : the_only (spell_of source spell)
                    (<[i := r1]> (playerspellamount_table db)) (i, r1)).
    { apply (the_only_insert _ _ (i, r) r1 E). by destruct HP. }
    pose proof (Hpos _ _ Hi) as Hr. simpl in Hr.
    rewrite (cast_spell_run _ _ _ _ _ _ (i, r1)); [|done|simpl; lia|done|done].
    simpl. rewrite decide_False by lia. rewrite insert_insert_eq.
    replace (PlayerSpellAmount.amount r + 1 - 1)
      with (PlayerSpellAmount.amount r) by lia.
    destruct r as [rp rs rn]. simpl. by rewrite insert_id.
  - assert (Hno : no_row (spell_of source spell) (playerspellamount_table db)).
    { destruct (objects_get_Raise _ _ _ E)
        as [->|(i1 & i2 & r1 & r2 & Hne & H1 & [P1 Q1] & H2 & [P2 Q2])];
        [by apply (get_no_row _)|].
      destruct Hne. apply (Hu i1 i2 r1 r2 H1 H2). split; congruence. }
    rewrite (bind_Ok _ _ _ _ _ (add_spell_new _ _ _ Hno)).
    rewrite (cast_spell_run _ _ _ _ _ _
               (next_id (playerspellamount_table db),
                PlayerSpellAmount.mk source spell 1));
      [|by apply the_only_create|simpl; lia|done|done].
    simpl. by rewrite delete_insert_id by apply next_id_fresh.
Qed.
End CastingScenarios.

(** ** [Player.proximate_group] *)

Lemma foldr_min_spec {A} (f : A → Z) (l : list A) (z : Z) :
  let m := foldr (λ x m, Z.min (f x) m) z l in
  m ≤ z ∧ (∀ x, x ∈ l → m ≤ f x) ∧ (m = z ∨ ∃ x, x ∈ l ∧ f x = m).
Proof.
  induction l as [|y l (IH1 & IH2 & IH3)]; simpl.
  - split_and!; [lia| |by left]. by intros x Hx%elem_of_nil.
  - split_and!.
    + lia.
    + intros x [->|Hx]%elem_of_cons; [lia|]. specialize (IH2 x Hx). lia.
    + destruct (Z.min_spec (f y) (foldr (λ x m, Z.min (f x) m) z l))
        as [[Hlt ->]|[Hle ->]].
      * right. exists y. split; [left|done].
      * destruct IH3 as [IH3|(x & Hx & Hfx)]; [by left|].
        right. exists x. split; [by right|done].
Qed.

Lemma aggregate_min_gclass_None tbl :
  aggregate_min_gclass tbl = None ↔ tbl = ∅.
Proof.
  unfold aggregate_min_gclass. rewrite <- map_to_list_empty_iff.
  by destruct (map_to_list tbl).
Qed.

Lemma aggregate_min_gclass_Some tbl c :
  aggregate_min_gclass tbl = Some c →
  (∀ i r, tbl !! i = Some r → c ≤ PlayerGroup.gclass r) ∧
  ∃ i r, tbl !! i = Some r ∧ PlayerGroup.gclass r = c.
Proof.
  unfold aggregate_min_gclass.
  destruct (map_to_list tbl) as [|g gs] eqn:El; [done|]. intros [= <-].
  destruct (foldr_min_spec (λ x : Instance PlayerGroup.t,
                              PlayerGroup.gclass x.2)
              gs (PlayerGroup.gclass g.2)) as (H1 & H2 & H3).
  split.
  - intros i r Hi. apply elem_of_map_to_list in Hi. rewrite El in Hi.
    apply elem_of_cons in Hi as [<-|Hi]; [done|]. apply (H2 _ Hi).
  - destruct H3 as [H3|(x & Hx & H3)].
    + exists g.1, g.2. split; [|done].
      apply elem_of_map_to_list. rewrite El. destruct g. left.
    + exists x.1, x.2. split; [|done].
      apply elem_of_map_to_list. rewrite El. destruct x. by right.
Qed.

Lemma player_groups_lookup groups db i r :
  player_groups groups db !! i = Some r ↔
  playergroup_table db !! i = Some r ∧ i ∈ groups.
Proof. unfold player_groups. by rewrite map_lookup_filter_Some. Qed.

(** X20: [proximate_group] is [None] exactly when the player is in no
    group of the table. *)
Theorem proximate_group_none groups db :
  proximate_group groups db = ProximateNone ↔
  ∀ i, i ∈ groups → playergroup_table db !! i = None.
Proof.
  unfold proximate_group.
  destruct (aggregate_min_gclass (player_groups groups db)) as [c|] eqn:E.
  - split.
    + by destruct (map_to_list _).
    + intros Hnone. apply aggregate_min_gclass_Some in E as (_ & i & r & Hi & _).
      apply player_groups_lookup in Hi as [Hi Hin].
      by rewrite (Hnone i Hin) in Hi.
  - split; [|done]. intros _ i Hin.
    apply aggregate_min_gclass_None in E.
    destruct (playergroup_table db !! i) as [r|] eqn:Hi; [|done].
    assert (H : player_groups groups db !! i = Some r)
      by (by apply player_groups_lookup).
    by rewrite E in H.
Qed.

(** X21: for a player in at least one group, [proximate_group] returns
    one of the player's groups, and none of the player's groups has a
    smaller class; the [[0]] never fails. *)
Theorem proximate_group_minimal groups db i r :
  i ∈ groups → playergroup_table db !! i = Some r →
  ∃ obj,
    proximate_group groups db = ProximateGroup obj ∧
    obj.1 ∈ groups ∧
    playergroup_table db !! obj.1 = Some obj.2 ∧
    ∀ j r', j ∈ groups → playergroup_table db !! j = Some r' →
            PlayerGroup.gclass obj.2 ≤ PlayerGroup.gclass r'.
Proof.
  intros Hin Hi. unfold proximate_group.
  destruct (aggregate_min_gclass (player_groups groups db)) as [c|] eqn:E.
  - apply aggregate_min_gclass_Some in E as (Hmin & k & x & Hk & Hc).
    destruct (map_to_list (objects_filter _ _)) as [|[j y] l] eqn:El.
    + apply map_to_list_empty_iff in El.
      assert (H : objects_filter (λ r, PlayerGroup.gclass r = c)
                    (player_groups groups db) !! k = Some x)
        by (by apply objects_filter_lookup).
      by rewrite El in H.
    + assert (H : (j, y) ∈ map_to_list
                (objects_filter (λ r, PlayerGroup.gclass r = c)
                   (player_groups groups db))) by (rewrite El; left).
      apply elem_of_map_to_list, objects_filter_lookup in H as [Hj Hy].
      pose proof Hj as Hj'. apply player_groups_lookup in Hj' as [Hj1 Hj2].
      exists (j, y). simpl. split_and!; try done.
      intros j' r' Hin' Hj'. rewrite Hy. apply (Hmin j').
      by apply player_groups_lookup.
  - apply aggregate_min_gclass_None in E.
    assert (H : player_groups groups db !! i = Some r)
      by (by apply player_groups_lookup).
    by rewrite E in H.
Qed.

(** ** The profile hook *)

(** X22: on a table with at most one player per user, [user_post_save]
    returns normally and leaves exactly one player for the user: the one
    there was, with the table untouched, or a new one with level 1 under a
    key that was free.  The players there were are kept, the table still
    has at most one player per user, and a second call changes nothing. *)
Theorem user_post_save_in_sync instance tbl :
  unique_together same_user tbl →
  ∃ obj tbl',
    user_post_save instance tbl = (Ok tt, tbl') ∧
    the_only (λ r, Player.user r = instance) tbl' obj ∧
    (tbl !! obj.1 = Some obj.2 ∧ tbl' = tbl ∨
     tbl !! obj.1 = None ∧ obj.2 = Player.mk instance (Some 1) None ∧
     tbl' = <[obj.1 := obj.2]> tbl) ∧
    unique_together same_user tbl' ∧
    user_post_save instance tbl' = (Ok tt, tbl').
Proof.
  intros Hu. unfold user_post_save at 1, get_or_create.
  destruct (objects_get (λ r, Player.user r = instance) tbl) as [obj|e] eqn:E.
  - exists obj, tbl. pose proof E as Ho. apply (get_the_only _) in Ho.
    split_and!; [done|done|left; split; [apply Ho|done]|done|].
    unfold user_post_save, get_or_create. by rewrite E.
  - destruct (objects_get_Raise _ _ _ E)
      as [->|(i1 & i2 & r1 & r2 & Hne & H1 & P1 & H2 & P2)].
    + apply (get_no_row _) in E. unfold objects_create.
      rewrite decide_False.
      2:{ intros (k & x & Hk & Hs). by destruct (E _ _ Hk). }
      eexists (next_id tbl, _), _. simpl.
      assert (Ho : the_only (λ r, Player.user r = instance)
                     (<[next_id tbl := Player.mk instance (Some 1) None]> tbl)
                     (next_id tbl, Player.mk instance (Some 1) None))
        by (by apply the_only_create).
      split_and!; [done|done|right; split_and!; [apply next_id_fresh|done..]| |].
      * intros j1 j2 x1 x2 Hx1 Hx2 Hs.
        destruct (decide (j1 = next_id tbl)) as [->|N1],
                 (decide (j2 = next_id tbl)) as [->|N2]; [done|..].
        -- rewrite lookup_insert_eq in Hx1. injection Hx1 as <-.
           rewrite lookup_insert_ne in Hx2 by done. by destruct (E _ _ Hx2).
        -- rewrite lookup_insert_eq in Hx2. injection Hx2 as <-.
           rewrite lookup_insert_ne in Hx1 by done. by destruct (E _ _ Hx1).
        -- rewrite lookup_insert_ne in Hx1, Hx2 by done.
           by apply (Hu _ _ _ _ Hx1 Hx2).
      * unfold user_post_save, get_or_create.
        by rewrite (the_only_get _ _ _ Ho).
    + destruct Hne. apply (Hu _ _ _ _ H1 H2). unfold same_user. congruence.
Qed.

(** ** The further properties at sample data *)

Lemma unique_together_singleton {R} (same : R → R → Prop) (i : nat) (r : R) :
  unique_together same ({[i := r]} : Table R).
Proof.
  intros j1 j2 x1 x2 [-> _]%lookup_singleton_Some [-> _]%lookup_singleton_Some.
  done.
Defined.

Lemma unique_together_empty {R} (same : R → R → Prop) :
  unique_together same (∅ : Table R).
Proof. intros j1 j2 x1 x2 H1. by rewrite lookup_empty in H1. Defined.

Lemma db_shields_unique_artifacts :
  unique_together same_artifact (playerartifactamount_table db_shields).
Proof. apply unique_together_singleton. Defined.

Lemma db_shields_unique_spells :
  unique_together same_spell (playerspellamount_table db_shields).
Proof. apply unique_together_singleton. Defined.

Lemma db_frozen_no_shield :
  no_row (artifact_named 1 "shield") (playerartifactamount_table db_frozen).
Proof. intros i r Hi. simpl in Hi. by rewrite lookup_empty in Hi. Defined.

Lemma db_frozen_no_shield_due :
  no_row (due_named 1 "shield") (playerspelldue_table db_frozen).
Proof. apply (get_no_row _). by vm_compute. Defined.

Lemma db_shields_player_3_free :
  no_row (due_of 3 freeze) (playerspelldue_table db_shields).
Proof. intros i r Hi. simpl in Hi. by rewrite lookup_empty in Hi. Defined.

Lemma sisters_of_child_witness :
  ∃ l,
    sisters (loaded (3%nat, group_a1)) db_groups =
      (Ok l, PlayerGroupObject.mk 3 group_a1 l) ∧
    NoDup l ∧
    ∀ obj, obj ∈ l ↔
      playergroup_table db_groups !! obj.1 = Some obj.2 ∧
      PlayerGroup.parent obj.2 = Some 1%nat ∧ obj.1 ≠ 3%nat.
Proof.
  apply (sisters_of_child (loaded (3%nat, group_a1)) db_groups 1 series_a);
    reflexivity.
Defined.

Lemma sisters_cached_unless_empty_witness :
  sisters
    (PlayerGroupObject.mk 1 series_a [(2%nat, series_b); (3%nat, group_a1)])
    empty_db =
  (Ok [(2%nat, series_b); (3%nat, group_a1)],
   PlayerGroupObject.mk 1 series_a [(2%nat, series_b); (3%nat, group_a1)]).
Proof.
  apply (sisters_cached_unless_empty (loaded (1%nat, series_a)) db_groups
           [(2%nat, series_b); (3%nat, group_a1)]
           (PlayerGroupObject.mk 1 series_a
              [(2%nat, series_b); (3%nat, group_a1)])).
  by vm_compute.
Defined.

Lemma sisters_symmetric_witness :
  (2%nat, series_b) ∈ [(2%nat, series_b); (3%nat, group_a1)] ↔
  (1%nat, series_a) ∈ [(3%nat, group_a1); (1%nat, series_a)].
Proof.
  apply (sisters_symmetric db_groups 1 2 series_a series_b);
    by vm_compute.
Defined.

Lemma use_modifier_decrements_witness :
  ∃ db',
    use_modifier 1 "shield" 2 db_shields =
      (Ok (1%nat, PlayerArtifactAmount.mk 1 shield 1), db') ∧
    the_only (artifact_named 1 "shield") (playerartifactamount_table db')
      (1%nat, PlayerArtifactAmount.mk 1 shield 1).
Proof.
  destruct (use_modifier_decrements 1 "shield" 2 db_shields
              (1%nat, PlayerArtifactAmount.mk 1 shield 3))
    as (db' & Huse & _ & Hleft & _).
  - apply db_shields_only_shield.
  - apply db_shields_unique_artifacts.
  - simpl. lia.
  - exists db'. split; [exact Huse|]. apply Hleft. simpl. lia.
Defined.

Lemma use_modifier_negative_adds_witness :
  ∃ obj' db',
    use_modifier 1 "shield" (-2) db_shields = (Ok obj', db') ∧
    playerartifactamount_table db' !! 1%nat = Some obj'.2 ∧
    PlayerArtifactAmount.amount obj'.2 = 3 + Z.abs (-2) ∧
    3 < PlayerArtifactAmount.amount obj'.2.
Proof.
  apply (use_modifier_negative_adds 1 "shield" (-2) db_shields
           (1%nat, PlayerArtifactAmount.mk 1 shield 3)).
  - apply db_shields_only_shield.
  - apply db_shields_unique_artifacts.
  - simpl. lia.
  - lia.
Defined.

Lemma give_modifier_adds_witness :
  ∃ db',
    give_modifier god_knows_shield 1 "shield" 2 db_shields =
      (Ok (Some (1%nat, PlayerArtifactAmount.mk 1 shield 5)), db') ∧
    the_only (artifact_named 1 "shield") (playerartifactamount_table db')
      (1%nat, PlayerArtifactAmount.mk 1 shield 5).
Proof.
  destruct (give_modifier_adds god_knows_shield 1 "shield" 2 db_shields
              (1%nat, PlayerArtifactAmount.mk 1 shield 3))
    as (db' & Hgive & Honly & _).
  - apply db_shields_only_shield.
  - apply db_shields_unique_artifacts.
  - lia.
  - exists db'. split; [exact Hgive|exact Honly].
Defined.

Lemma give_modifier_creates_witness :
  ∃ i db',
    give_modifier god_knows_shield 1 "shield" 4 db_frozen =
      (Ok (Some (i, PlayerArtifactAmount.mk 1 shield 4)), db') ∧
    the_only (artifact_named 1 "shield") (playerartifactamount_table db')
      (i, PlayerArtifactAmount.mk 1 shield 4).
Proof.
  destruct (give_modifier_creates god_knows_shield 1 "shield" 4 db_frozen
              shield)
    as (i & db' & Hgive & _ & Honly & _).
  - apply db_frozen_no_shield.
  - apply db_frozen_no_shield_due.
  - reflexivity.
  - reflexivity.
  - intros j r Hj. simpl in Hj. by rewrite lookup_empty in Hj.
  - lia.
  - exists i, db'. split; [exact Hgive|exact Honly].
Defined.

Lemma use_modifier_insufficient_witness :
  use_modifier 1 "shield" 5 db_shields = (Raise InsufficientAmount, db_shields).
Proof.
  apply (use_modifier_insufficient 1 "shield" 5 db_shields
           (1%nat, PlayerArtifactAmount.mk 1 shield 3)).
  - apply db_shields_only_shield.
  - simpl. lia.
Defined.

Lemma give_then_use_existing_witness :
  give_then_use god_knows_shield 1 "shield" 2 db_shields =
  (Ok (1%nat, PlayerArtifactAmount.mk 1 shield 3), db_shields).
Proof.
  apply give_then_use_existing.
  - apply db_shields_only_shield.
  - apply db_shields_unique_artifacts.
  - simpl. lia.
  - lia.
Defined.

Lemma give_then_use_new_witness :
  give_then_use god_knows_shield 1 "shield" 4 db_frozen =
    (Ok (next_id (playerartifactamount_table db_frozen),
         PlayerArtifactAmount.mk 1 shield 0), db_frozen) ∧
  has_modifier 1 "shield" db_frozen = (Ok NotFound, db_frozen).
Proof.
  apply give_then_use_new.
  - apply db_frozen_no_shield.
  - apply db_frozen_no_shield_due.
  - apply unique_together_empty.
  - reflexivity.
  - reflexivity.
  - intros j r Hj. simpl in Hj. by rewrite lookup_empty in Hj.
  - lia.
Defined.

Lemma use_then_give_restores_witness :
  use_then_give god_knows_shield 1 "shield" 2 db_shields =
  (Ok (Some (1%nat, PlayerArtifactAmount.mk 1 shield 3)), db_shields).
Proof.
  apply use_then_give_restores.
  - apply db_shields_only_shield.
  - apply db_shields_unique_artifacts.
  - lia.
  - simpl. lia.
Defined.

Lemma modifier_name_ambiguous_witness :
  has_modifier 1 "shield" db_two_shields =
    (Raise MultipleObjectsReturned, db_two_shields) ∧
  use_modifier 1 "shield" 1 db_two_shields =
    (Raise MultipleObjectsReturned, db_two_shields) ∧
  (0 < 1 →
   give_modifier god_knows_shield 1 "shield" 1 db_two_shields =
     (Raise MultipleObjectsReturned, db_two_shields)).
Proof.
  apply (modifier_name_ambiguous god_knows_shield 1 "shield" 1 db_two_shields
           1 2 (PlayerArtifactAmount.mk 1 shield 3)
           (PlayerArtifactAmount.mk 1 shield' 1)).
  - lia.
  - by vm_compute.
  - by split.
  - by vm_compute.
  - by split.
Defined.

Lemma add_spell_first_witness :
  ∃ i db',
    add_spell 2 freeze db_shields = (Ok tt, db') ∧
    the_only (spell_of 2 freeze) (playerspellamount_table db')
      (i, PlayerSpellAmount.mk 2 freeze 1).
Proof.
  destruct (add_spell_first 2 freeze db_shields)
    as (i & db' & Hadd & _ & Honly & _).
  - apply db_shields_no_spell_of_player_2.
  - exists i, db'. split; [exact Hadd|exact Honly].
Defined.

Lemma add_spell_again_witness :
  ∃ db',
    add_spell 1 freeze db_shields = (Ok tt, db') ∧
    the_only (spell_of 1 freeze) (playerspellamount_table db')
      (1%nat, PlayerSpellAmount.mk 1 freeze 3).
Proof.
  destruct (add_spell_again 1 freeze db_shields
              (1%nat, PlayerSpellAmount.mk 1 freeze 2))
    as (db' & Hadd & Honly & _).
  - apply db_shields_player_1_has_freeze.
  - exists db'. split; [exact Hadd|exact Honly].
Defined.

Lemma cast_spell_no_rollback_witness :
  ∃ db1,
    cast_spell god_fails 3 freeze 1 50 db_shields = (Ok false, db1) ∧
    playerspelldue_table db1 !! next_id (playerspelldue_table db_shields) =
      Some (PlayerSpellDue.mk 3 freeze 1 50) ∧
    playerspellamount_table db1 = playerspellamount_table db_shields.
Proof.
  destruct (cast_spell_no_rollback god_fails 3 freeze 1 50 db_shields
              (1%nat, PlayerSpellAmount.mk 1 freeze 2) GodError)
    as (Hcast & _ & Hrow & Hamt).
  - apply db_shields_player_1_has_freeze.
  - simpl. lia.
  - apply db_shields_player_3_free.
  - reflexivity.
  - eexists. split; [exact Hcast|]. split; [exact Hrow|exact Hamt].
Defined.

Lemma cast_twice_refused_witness :
  (cast_spell god_idle 3 freeze 1 50 db_shields).1 = Ok true ∧
  cast_twice god_idle 3 freeze 1 50 60 db_shields =
    (Ok false, (cast_spell god_idle 3 freeze 1 50 db_shields).2).
Proof.
  apply (cast_twice_refused god_idle 3 freeze 1 50 60 db_shields
           (1%nat, PlayerSpellAmount.mk 1 freeze 2)).
  - apply db_shields_player_1_has_freeze.
  - simpl. lia.
  - apply db_shields_player_3_free.
  - reflexivity.
Defined.

Lemma has_modifier_after_cast_witness :
  ∃ db',
    cast_spell god_idle 3 freeze 1 50 db_shields = (Ok true, db') ∧
    has_modifier 3 "freeze" db' =
      (Ok (SpellDueRecord (next_id (playerspelldue_table db_shields),
                           PlayerSpellDue.mk 3 freeze 1 50)), db').
Proof.
  apply (has_modifier_after_cast god_idle 3 freeze 1 50 db_shields
           (1%nat, PlayerSpellAmount.mk 1 freeze 2)).
  - apply db_shields_player_1_has_freeze.
  - simpl. lia.
  - apply db_shields_player_3_free.
  - reflexivity.
  - apply (get_no_row _). by vm_compute.
  - intros i r Hi. simpl in Hi. by rewrite lookup_empty in Hi.
Defined.

Lemma spells_after_cast_witness :
  ∃ db',
    cast_spell god_idle 3 freeze 1 50 db_shields = (Ok true, db') ∧
    spells 3 db' =
      <[next_id (playerspelldue_table db_shields) :=
          PlayerSpellDue.mk 3 freeze 1 50]> (spells 3 db_shields) ∧
    spells 3 db_shields !! next_id (playerspelldue_table db_shields) = None ∧
    ∀ q, q ≠ 3%nat → spells q db' = spells q db_shields.
Proof.
  apply (spells_after_cast god_idle 3 freeze 1 50 db_shields
           (1%nat, PlayerSpellAmount.mk 1 freeze 2)).
  - apply db_shields_player_1_has_freeze.
  - simpl. lia.
  - apply db_shields_player_3_free.
  - reflexivity.
Defined.

Lemma add_then_cast_restores_witness :
  add_then_cast god_idle 3 freeze 1 50 db_shields =
  (Ok true,
   mkDB (playergroup_table db_shields) (playerartifactamount_table db_shields)
        (playerspellamount_table db_shields)
        (<[next_id (playerspelldue_table db_shields) :=
             PlayerSpellDue.mk 3 freeze 1 50]>
           (playerspelldue_table db_shields))).
Proof.
  apply add_then_cast_restores.
  - apply db_shields_unique_spells.
  - apply map_Forall_singleton. simpl. lia.
  - apply db_shields_player_3_free.
  - reflexivity.
Defined.

Lemma proximate_group_minimal_witness :
  ∃ obj,
    proximate_group {[1%nat; 4%nat]} db_groups = ProximateGroup obj ∧
    obj.1 ∈ ({[1%nat; 4%nat]} : gset nat) ∧
    playergroup_table db_groups !! obj.1 = Some obj.2 ∧
    ∀ j r', j ∈ ({[1%nat; 4%nat]} : gset nat) →
            playergroup_table db_groups !! j = Some r' →
            PlayerGroup.gclass obj.2 ≤ PlayerGroup.gclass r'.
Proof.
  apply (proximate_group_minimal {[1%nat; 4%nat]} db_groups 1 series_a).
  - set_solver.
  - by vm_compute.
Defined.

Lemma players_unique : unique_together same_user players.
Proof.
  intros j1 j2 x1 x2 H1 H2 Hs. unfold players in *.
  apply lookup_insert_Some in H1 as [[<- <-]|[N1 [<- <-]%lookup_singleton_Some]];
  apply lookup_insert_Some in H2 as [[<- <-]|[N2 [<- <-]%lookup_singleton_Some]];
    done.
Defined.

Lemma user_post_save_in_sync_witness :
  ∃ obj tbl',
    user_post_save 9 players = (Ok tt, tbl') ∧
    the_only (λ r, Player.user r = 9%nat) tbl' obj ∧
    (players !! obj.1 = Some obj.2 ∧ tbl' = players ∨
     players !! obj.1 = None ∧ obj.2 = Player.mk 9 (Some 1) None ∧
     tbl' = <[obj.1 := obj.2]> players) ∧
    unique_together same_user tbl' ∧
    user_post_save 9 tbl' = (Ok tt, tbl').
Proof. apply user_post_save_in_sync. apply players_unique. Defined.
